(** * create-mvvm-structure: the command-line entry point and the scaffolding core

    A shallow embedding of [bin/index.js] (the commander action, the project
    validation, the success message and the process-wide handlers) and of the
    materialization and merge engine that the specification describes for
    [lib/generator.js]. *)

From Stdlib Require Import ZArith.
From stdpp Require Import gmap strings list.

Local Open Scope string_scope.
Set Warnings "-register-all".

(** ** JavaScript values read by the entry point *)

Module Js.

(** A JavaScript [Error]: only its [message] is ever read. *)
Record error := Error { message : string }.

(** The value [JSON.parse] yields.  A number literal is kept as a decimal
    mantissa and exponent; an object keeps its members in textual order. *)
Inductive json :=
| JNull
| JBool (b : bool)
| JNum (mantissa exponent : Z)
| JStr (s : string)
| JArr (items : list json)
| JObj (members : list (string * json)).

(** A member of a parsed object: when a key is repeated, [JSON.parse] keeps
    the last one. *)
Fixpoint obj_get (k : string) (members : list (string * json)) : option json :=
  match members with
  | [] => None
  | (k', v) :: rest =>
      match obj_get k rest with
      | Some v' => Some v'
      | None => if String.eqb k' k then Some v else None
      end
  end.

(** How a statement completes: normally, by throwing, or by ending the
    process ([process.exit]), which no [catch] intercepts. *)
Inductive completion (A : Type) :=
| Ok (a : A)
| Throw (e : error)
| Halt.
Arguments Ok {A} a.
Arguments Throw {A} e.
Arguments Halt {A}.

(** [v.k] for the two names the program reads, [dependencies] and [expo];
    [None] is [undefined].  Reading a property of [null] throws a TypeError;
    on a primitive or an array these names are not defined. *)
Definition get_prop (v : json) (k : string) : completion (option json) :=
  match v with
  | JNull => Throw (Error ("Cannot read properties of null (reading '" ++ k ++ "')"))
  | JObj members => Ok (obj_get k members)
  | _ => Ok None
  end.

(** The number [JSON.parse] makes of the literal [m * 10^e] is the nearest
    double; it is zero when the literal is zero or at most half the least
    positive double, [2^-1075] (a tie rounds to the even neighbour, zero). *)
Definition rounds_to_zero (m e : Z) : bool :=
  ((m =? 0) || ((e <? 0) && (Z.abs m * 2 ^ 1075 <=? 10 ^ (- e))))%Z.
Arguments rounds_to_zero : simpl never.

(** JavaScript truthiness, as [!x] tests it. *)
Definition truthy (x : option json) : bool :=
  match x with
  | None => false
  | Some JNull => false
  | Some (JBool b) => b
  | Some (JNum m e) => negb (rounds_to_zero m e)
  | Some (JStr s) => negb (String.eqb s "")
  | Some (JArr _) => true
  | Some (JObj _) => true
  end.

(** [x || false] on an option value that commander leaves [undefined]
    ([None]) unless the flag was given. *)
Definition or_false (x : option bool) : bool :=
  match x with
  | Some b => b
  | None => false
  end.

End Js.

(** ** The entry point, [bin/index.js] *)

Module Cli.
Import Js.

(** The object commander passes to the action: one member per declared
    option, [undefined] when the flag is absent. *)
Record options := Options {
  force : option bool;
  overwrite : option bool;
  skipDeps : option bool
}.

Definition no_options : options := Options None None None.

(** The flags declared with [.option]: [-f, --force], [-o, --overwrite] and
    [--skip-deps]. *)
Inductive flag := FlagForce | FlagOverwrite | FlagSkipDeps.

(** The declared option that a token spells exactly. *)
Definition flag_of_token (tok : string) : option flag :=
  if String.eqb tok "-f" then Some FlagForce
  else if String.eqb tok "--force" then Some FlagForce
  else if String.eqb tok "-o" then Some FlagOverwrite
  else if String.eqb tok "--overwrite" then Some FlagOverwrite
  else if String.eqb tok "--skip-deps" then Some FlagSkipDeps
  else None.

Definition set_flag (f : flag) (o : options) : options :=
  match f with
  | FlagForce => Options (Some true) (overwrite o) (skipDeps o)
  | FlagOverwrite => Options (force o) (Some true) (skipDeps o)
  | FlagSkipDeps => Options (force o) (overwrite o) (Some true)
  end.

(** *** [program.parse], as commander 11 reads the arguments

    The options commander knows are the three declared ones and the
    [-V, --version] that [.version('1.0.0')] adds; [-h, --help] is its help
    flag.  All of them are boolean. *)
Inductive known := Declared (f : flag) | VersionOption.

(** [_findOption]: the known option a token spells exactly. *)
Definition find_option (tok : string) : option known :=
  if String.eqb tok "-V" then Some VersionOption
  else if String.eqb tok "--version" then Some VersionOption
  else option_map Declared (flag_of_token tok).

Definition is_help (tok : string) : bool :=
  String.eqb tok "-h" || String.eqb tok "--help".

Definition dash : Ascii.ascii := Ascii.Ascii true false true true false true false false.

(** How the reading of one argument ends: it was an option (or a group of
    short options) and is used up; it is the terminator [--]; what is left of
    it is an option commander does not know; or it is an operand. *)
Inductive ending :=
| Consumed
| Terminator
| UnknownOption (tok : string)
| Operand (tok : string).

(** One argument that starts with a dash, given by what follows the dash:
    the options it sets, in order, and how it ends.  A group of short flags
    such as [-fo] is read one letter at a time: the first letter is taken
    when it is a known short option, and the rest is read again as an
    argument of its own behind a new dash. *)
Fixpoint after_dash (rest : string) : list known * ending :=
  let arg := String dash rest in
  if String.eqb arg "--" then ([], Terminator)
  else
    match rest with
    | EmptyString => ([], Operand arg)
    | String c rest' =>
        match find_option arg with
        | Some k => ([k], Consumed)
        | None =>
            if negb (String.eqb rest' "") && negb (Ascii.eqb c dash) then
              match find_option (String dash (String c EmptyString)) with
              | Some k => let '(ks, e) := after_dash rest' in (k :: ks, e)
              | None => ([], UnknownOption arg)
              end
            else ([], UnknownOption arg)
        end
    end.

Definition read_arg (arg : string) : list known * ending :=
  match arg with
  | String c rest => if Ascii.eqb c dash then after_dash rest else ([], Operand arg)
  | EmptyString => ([], Operand arg)
  end.

(** The listeners of the options read: a declared flag sets its member to
    [true]; the version option prints the version and ends the process
    ([None]). *)
Fixpoint emit_all (ks : list known) (o : options) : option options :=
  match ks with
  | [] => Some o
  | Declared f :: rest => emit_all rest (set_flag f o)
  | VersionOption :: _ => None
  end.

(** [parseOptions]: the loop over the arguments.  Operands are set aside
    (the action takes none); from the first unknown option on, everything
    that is not a known option is kept in [unknown]; after [--] nothing is
    read as an option.  The result is [None] when the version was printed. *)
Fixpoint parse_loop (o : options) (unknown : list string) (args : list string)
  : option (options * list string) :=
  match args with
  | [] => Some (o, unknown)
  | arg :: rest =>
      let '(ks, e) := read_arg arg in
      match emit_all ks o with
      | None => None
      | Some o' =>
          match e with
          | Consumed => parse_loop o' unknown rest
          | Terminator =>
              Some (o', match unknown with
                        | [] => []
                        | _ :: _ => (unknown ++ "--" :: rest)%list
                        end)
          | UnknownOption tok => parse_loop o' (unknown ++ [tok])%list rest
          | Operand tok =>
              parse_loop o' match unknown with
                            | [] => []
                            | _ :: _ => (unknown ++ [tok])%list
                            end rest
          end
      end
  end.

(** What [program.parse] does with the arguments after the script name: it
    calls the action with the options read, or prints the version, or the
    help (a help flag among the unknown arguments), or the error for the
    first unknown option. *)
Inductive parsed :=
| Runs (o : options)
| PrintsVersion
| PrintsHelp
| Rejects (flag : string).

Definition parse (args : list string) : parsed :=
  match parse_loop no_options [] args with
  | None => PrintsVersion
  | Some (o, unknown) =>
      if existsb is_help unknown then PrintsHelp
      else
        match unknown with
        | [] => Runs o
        | flag :: _ => Rejects flag
        end
  end.

(** A plain argument: one declared spelling, or an operand. *)
Definition plain (tok : string) : bool :=
  match flag_of_token tok with
  | Some _ => true
  | None =>
      match tok with
      | String c _ => negb (Ascii.eqb c dash)
      | EmptyString => true
      end
  end.

(** The second argument of [new StructureGenerator(currentDir, {...})]. *)
Record generator_options := GeneratorOptions {
  gen_force : bool;
  gen_overwrite : bool
}.

(** What [console.log] and [console.error] print, one constructor per call
    in the source (colours left out). *)
Inductive line :=
| MsgCreating                     (* action: 'Creating Expo Router + MVVM Architecture...' *)
| MsgError (msg : string)         (* catch: 'Error:' followed by error.message *)
| MsgTip                          (* catch: 'Tip: Make sure you are in a ... project directory' *)
| MsgSuccess                      (* showSuccessMessage: '... created successfully!' *)
| MsgStructureHeader              (* 'Project Structure Generated:' *)
| MsgStructureTree                (* the app/ and src/ tree *)
| MsgNextSteps                    (* 'Next Steps:' *)
| MsgStep1 | MsgStep1Core | MsgStep1Navigation
| MsgStep2 | MsgStep2Exports
| MsgStep3 | MsgStep3Tsconfig
| MsgStep4 | MsgStep4Metro
| MsgStep5 | MsgStep5Start
| MsgInstallingDeps               (* 'Installing dependencies automatically...' *)
| MsgHappyCoding                  (* 'Happy coding with MVVM Architecture!' *)
| MsgUnexpected (msg : string)    (* uncaughtException handler *)
| MsgUnhandled (reason : string). (* unhandledRejection handler *)

(** The observable effects of the program, in order. *)
Inductive event :=
| ConsoleLog (l : line)
| ConsoleError (l : line)
| NewStructureGenerator (dir : string) (opts : generator_options)
| Generate
| ProcessExit (code : Z).

(** What [fs-extra] finds at a path. *)
Inductive node :=
| Folder
| Unparseable (raw : string)
| JsonFile (v : json).

(** The environment of one invocation: the working directory, the disk,
    how [generate()] of the core settles for a given construction, and the
    message of the SyntaxError that [JSON.parse] raises on a text that does
    not parse (it depends on the text and on the version of Node). *)
Record world := World {
  cwd : string;
  disk : gmap string node;
  core : string -> generator_options -> completion unit;
  syntax_error : string -> string
}.

(** [path.join(dir, file)] for a directory as [process.cwd()] returns it. *)
Definition path_join (dir file : string) : string :=
  if String.eqb dir "/" then "/" ++ file else dir ++ "/" ++ file.

Definition pathExists (w : world) (p : string) : bool :=
  match disk w !! p with
  | Some _ => true
  | None => false
  end.

(** [fs.readJson]: the parse error is rethrown with the path before its
    message. *)
Definition readJson (w : world) (p : string) : completion json :=
  match disk w !! p with
  | Some (JsonFile v) => Ok v
  | Some (Unparseable raw) => Throw (Error (p ++ ": " ++ syntax_error w raw))
  | Some Folder => Throw (Error "EISDIR: illegal operation on a directory, read")
  | None => Throw (Error ("ENOENT: no such file or directory, open '" ++ p ++ "'"))
  end.

(** Effects: a trace of events and a completion. *)
Definition M (A : Type) : Type := (list event * completion A)%type.

Definition ret {A} (a : A) : M A := ([], Ok a).

Definition bind {A B} (m : M A) (k : A -> M B) : M B :=
  match m with
  | (tr, Ok a) => let '(tr', r) := k a in ((tr ++ tr')%list, r)
  | (tr, Throw e) => (tr, Throw e)
  | (tr, Halt) => (tr, Halt)
  end.

Notation "x <- m ;; k" := (bind m (fun x => k))
  (at level 100, m at next level, right associativity).
Notation "m ;;; k" := (bind m (fun _ => k))
  (at level 100, right associativity).

Definition emit (e : event) : M unit := ([e], Ok tt).
Definition lift {A} (c : completion A) : M A := ([], c).
Definition throw {A} (msg : string) : M A := ([], Throw (Error msg)).
Definition process_exit {A} (code : Z) : M A := ([ProcessExit code], Halt).

(** [try { body } catch (error) { handler }] *)
Definition try_catch {A} (body : M A) (handler : error -> M A) : M A :=
  match body with
  | (tr, Throw e) => let '(tr', r) := handler e in ((tr ++ tr')%list, r)
  | other => other
  end.

Definition requiredFiles : list string := ["package.json"; "app.json"].

(** The [for (const file of requiredFiles)] loop of
    [validateProjectDirectory]. *)
Fixpoint check_required (w : world) (currentDir : string) (files : list string) : M unit :=
  match files with
  | [] => ret tt
  | file :: rest =>
      let filePath := path_join currentDir file in
      if negb (pathExists w filePath)
      then throw ("Not a valid Expo project directory. Missing: " ++ file)
      else check_required w currentDir rest
  end.

Definition not_expo_message : string :=
  "This does not appear to be an Expo project. Please run this command in an Expo project directory.".

(** [!packageJson.dependencies || !packageJson.dependencies.expo] *)
Definition lacks_expo (packageJson : json) : M bool :=
  deps <- lift (get_prop packageJson "dependencies") ;;
  if negb (truthy deps) then ret true
  else
    match deps with
    | Some d => expo <- lift (get_prop d "expo") ;; ret (negb (truthy expo))
    | None => ret true
    end.

Definition validateProjectDirectory (w : world) (currentDir : string) : M unit :=
  check_required w currentDir requiredFiles ;;;
  let packageJsonPath := path_join currentDir "package.json" in
  packageJson <- lift (readJson w packageJsonPath) ;;
  missing <- lacks_expo packageJson ;;
  if missing then throw not_expo_message else ret tt.

Definition console_log (l : line) : M unit := emit (ConsoleLog l).
Definition console_error (l : line) : M unit := emit (ConsoleError l).

Definition showSuccessMessage (o : options) : M unit :=
  console_log MsgSuccess ;;;
  console_log MsgStructureHeader ;;;
  console_log MsgStructureTree ;;;
  console_log MsgNextSteps ;;;
  console_log MsgStep1 ;;;
  console_log MsgStep1Core ;;;
  console_log MsgStep1Navigation ;;;
  console_log MsgStep2 ;;;
  console_log MsgStep2Exports ;;;
  console_log MsgStep3 ;;;
  console_log MsgStep3Tsconfig ;;;
  console_log MsgStep4 ;;;
  console_log MsgStep4Metro ;;;
  console_log MsgStep5 ;;;
  console_log MsgStep5Start ;;;
  (if negb (or_false (skipDeps o)) then console_log MsgInstallingDeps else ret tt) ;;;
  console_log MsgHappyCoding.

Definition generator_options_of (o : options) : generator_options :=
  GeneratorOptions (or_false (force o)) (or_false (overwrite o)).

(** The callback given to [program.action].  Each [await] is a step of the
    sequence: the callback is followed from its call to its completion. *)
Definition action (w : world) (o : options) : M unit :=
  try_catch
    (console_log MsgCreating ;;;
     let currentDir := cwd w in
     validateProjectDirectory w currentDir ;;;
     let opts := generator_options_of o in
     emit (NewStructureGenerator currentDir opts) ;;;
     emit Generate ;;;
     lift (core w currentDir opts) ;;;
     showSuccessMessage o)
    (fun error =>
       console_error (MsgError (message error)) ;;;
       console_log MsgTip ;;;
       process_exit 1).

(** The two listeners registered with [process.on]. *)
Definition on_uncaughtException (err : error) : M unit :=
  console_error (MsgUnexpected (message err)) ;;;
  process_exit 1.

Definition on_unhandledRejection (reason : string) : M unit :=
  console_error (MsgUnhandled reason) ;;;
  process_exit 1.

Inductive listener :=
| OnError (h : error -> M unit)
| OnRejection (h : string -> M unit).

(** The [process.on] calls the script makes when it is loaded, in order. *)
Definition process_listeners : list (string * listener) :=
  [("uncaughtException", OnError on_uncaughtException);
   ("unhandledRejection", OnRejection on_unhandledRejection)].

(** Observations on a run. *)
Definition trace {A} (m : M A) : list event := fst m.

Definition is_core_event (e : event) : bool :=
  match e with
  | NewStructureGenerator _ _ => true
  | Generate => true
  | _ => false
  end.

Definition core_invoked (tr : list event) : bool := existsb is_core_event tr.

(** The exit status that the effects of the program decide: the code of
    the first [process.exit] among them, and 0 when there is none and the
    program runs to its end.  (When the core ends the process itself, the
    status is the core's and is not read here.) *)
Fixpoint exit_status (tr : list event) : Z :=
  match tr with
  | [] => 0
  | ProcessExit code :: _ => code
  | _ :: rest => exit_status rest
  end.

(** The manifest [pkg] lists the package [name] under its member [section]
    (the vocabulary in which the validation is specified). *)
Definition declares (section name : string) (pkg : json) : bool :=
  match pkg with
  | JObj members =>
      match obj_get section members with
      | Some (JObj deps) =>
          match obj_get name deps with
          | Some _ => true
          | None => false
          end
      | _ => false
      end
  | _ => false
  end.

Definition package_json (w : world) : string := path_join (cwd w) "package.json".
Definition app_json (w : world) : string := path_join (cwd w) "app.json".

(** What [showSuccessMessage] prints, and what the action has done once
    [generate()] has been called. *)
Definition success_lines (o : options) : list event :=
  (map ConsoleLog
     [MsgSuccess; MsgStructureHeader; MsgStructureTree; MsgNextSteps;
      MsgStep1; MsgStep1Core; MsgStep1Navigation; MsgStep2; MsgStep2Exports;
      MsgStep3; MsgStep3Tsconfig; MsgStep4; MsgStep4Metro; MsgStep5; MsgStep5Start]
   ++ (if or_false (skipDeps o) then [] else [ConsoleLog MsgInstallingDeps])
   ++ [ConsoleLog MsgHappyCoding])%list.

Definition started (w : world) (o : options) : list event :=
  [ConsoleLog MsgCreating; NewStructureGenerator (cwd w) (generator_options_of o); Generate].

(** The project is one the validation is specified to refuse. *)
Definition invalid_project (w : world) : Prop :=
  pathExists w (package_json w) = false \/
  pathExists w (app_json w) = false \/
  exists pkg, readJson w (package_json w) = Ok pkg /\
              declares "dependencies" "expo" pkg = false.

(** The project that [setupTestProject] of the local test script writes. *)
Definition test_package_json : json :=
  JObj [("name", JStr "test-expo-app");
        ("main", JStr "expo-router/entry");
        ("dependencies",
         JObj [("expo", JStr "~49.0.0");
               ("expo-router", JStr "~2.0.0");
               ("react", JStr "18.2.0");
               ("react-native", JStr "0.72.0")])].

Definition test_app_json : json :=
  JObj [("expo", JObj [("name", JStr "Test Expo App"); ("slug", JStr "test-expo-app")])].

(** A project at a fixed path, given what stands at its two manifests.  Its
    [generate()] resolves; the text that does not parse in the examples is
    the empty one, on which [JSON.parse] reports an unexpected end of
    input. *)
Definition project (pkg app : option node) : world :=
  World "/work/test-expo-project"
        (let d1 := match pkg with
                   | Some n => <["/work/test-expo-project/package.json" := n]> ∅
                   | None => ∅
                   end in
         match app with
         | Some n => <["/work/test-expo-project/app.json" := n]> d1
         | None => d1
         end)
        (fun _ _ => Ok tt)
        (fun _ => "Unexpected end of JSON input").

Definition test_project : world :=
  project (Some (JsonFile test_package_json)) (Some (JsonFile test_app_json)).

(** The same project with expo moved to [devDependencies]. *)
Definition dev_only_package_json : json :=
  JObj [("name", JStr "test-expo-app");
        ("dependencies", JObj [("react", JStr "18.2.0")]);
        ("devDependencies", JObj [("expo", JStr "~49.0.0")])].

Definition is_install_signal (e : event) : bool :=
  match e with
  | ConsoleLog MsgInstallingDeps => true
  | _ => false
  end.

Definition rejection_trace (e : error) : list event :=
  [ConsoleLog MsgCreating; ConsoleError (MsgError (message e)); ConsoleLog MsgTip; ProcessExit 1].

End Cli.

(** ** The materialization and merge engine *)

Module Core.

(** Modelled from the spec: the write modes of the data model (section 3); the
    engine that runs under them, [lib/generator.js], is not among the sources. *)
Inductive WriteMode := Skip | Force | Overwrite.


(** Modelled from the spec: the error taxonomy of section 7, raised by the
    absent engine. *)
Inductive Error :=
| InvalidPathError
| TypeConflictError
| MalformedConfigError
| IOFailure
| PreconditionError.

(** Modelled from the spec: the action recorded for one entry (section 3,
    FileOutcome); the engine that records it is absent. *)
Inductive Action := Created | Skipped | Overwritten | Deleted | Failed.

(** Modelled from the spec: the outcome of one entry (section 3), produced by
    the absent engine. *)
Record FileOutcome := Outcome {
  path : string;
  action : Action;
  error : option Error
}.

(** Modelled from the spec: a [Failed] outcome with its error, as the absent
    engine records a failure. *)
Definition failed (p : string) (e : Error) : FileOutcome := Outcome p Failed (Some e).

(** Modelled from the spec: the kind of a manifest entry (section 3); the
    manifest of [lib/generator.js] is absent. *)
Inductive Kind := Directory | StaticFile | TemplatedFile.

(** Modelled from the spec: the template of a manifest entry (section 3): fixed
    text, or a body that is a function of an explicit parameter; the
    templates of the absent generator are not among the sources. *)
Inductive Template :=
| NoBody
| StaticBody (text : string)
| TemplatedBody (parameter : string) (body : string -> string).

(** Modelled from the spec: a manifest entry (section 3) of the absent
    generator. *)
Record ManifestEntry := Entry {
  relativePath : string;
  kind : Kind;
  template : Template
}.

(** Modelled from the spec: the rendering of an entry (section 4.2:
    substituting parameters for a templated file), absent from the sources. *)
Definition render (e : ManifestEntry) : string :=
  match template e with
  | NoBody => ""
  | StaticBody text => text
  | TemplatedBody parameter body => body parameter
  end.

(** Modelled from the spec: what the absent engine finds at a path of the
    target project: a directory or a file with its content. *)
Inductive node := Dir | File (content : string).

(** Modelled from the spec: the filesystem the absent engine works on: what is
    at each absolute path, and the paths on which a write or a delete raises
    (permission, lock). *)
Record disk := Disk {
  nodes : gmap string node;
  denied : gset string
}.

(** Modelled from the spec: the path separator of the absent path resolver. *)
Definition slash : Ascii.ascii := Ascii.Ascii true true true true false true false false.

(** Modelled from the spec: the segments of a relative path between its
    separators, for the absent path resolver (section 4.1). *)
Fixpoint segments (p : string) : list string :=
  match p with
  | EmptyString => [""]
  | String c rest =>
      if Ascii.eqb c slash then "" :: segments rest
      else
        match segments rest with
        | seg :: segs => String c seg :: segs
        | [] => [String c ""]
        end
  end.

(** Modelled from the spec: an absolute path (section 4.1) starts at the
    root; the resolver that tests it is absent. *)
Definition is_absolute (p : string) : bool :=
  match p with
  | String c _ => Ascii.eqb c slash
  | EmptyString => false
  end.

(** Modelled from the spec: a parent-directory traversal (section 4.1) is a
    segment [..]; the resolver that tests it is absent. *)
Definition has_traversal (p : string) : bool :=
  existsb (String.eqb "..") (segments p).

(** Modelled from the spec: the segments that name something (neither empty
    nor [.]), for the absent path resolver. *)
Definition proper_segment (s : string) : bool :=
  negb (String.eqb s "") && negb (String.eqb s ".").

(** Modelled from the spec: a path below a directory, for the absent path
    resolver. *)
Definition join (dir name : string) : string := dir ++ "/" ++ name.

(** Modelled from the spec: the directories from the root down to a
    destination, outermost first (section 4.2: recursive creation), for the
    absent engine. *)
Fixpoint chain (base : string) (segs : list string) : list string :=
  match segs with
  | [] => []
  | s :: rest => let p := join base s in p :: chain p rest
  end.

(** Modelled from the spec: the absolute destination of a relative path under
    the root (section 4.1), for the absent path resolver. *)
Definition destination (root relativePath : string) : string :=
  fold_left join (filter (fun s => proper_segment s = true) (segments relativePath)) root.

(** Modelled from the spec: the result of the absent path resolver
    (section 4.1). *)
Record Resolved := Resolution {
  absolutePath : string;
  exists_ : bool;
  isDirectory : bool
}.

(** Modelled from the spec: [resolve(root, relativePath)] of section 4.1, absent
    from the sources: a read-only stat that rejects traversal and absolute
    paths with [InvalidPathError]. *)
Definition resolve (d : disk) (root relativePath : string) : Error + Resolved :=
  if has_traversal relativePath || is_absolute relativePath then inl InvalidPathError
  else
    let abs := destination root relativePath in
    match nodes d !! abs with
    | None => inr (Resolution abs false false)
    | Some Dir => inr (Resolution abs true true)
    | Some (File _) => inr (Resolution abs true false)
    end.

(** Modelled from the spec: the write of a file by the absent engine, which
    raises on a refused path. *)
Definition write_file (d : disk) (abs content : string) : option disk :=
  if decide (abs ∈ denied d) then None
  else Some (Disk (<[abs := File content]> (nodes d)) (denied d)).

(** Modelled from the spec: the recursive directory creation of the absent
    engine (section 4.2): missing parents are created, a present directory is
    kept, a file in the way or a refused path is a failure. *)
Fixpoint mkdir_p (d : disk) (dirs : list string) : option disk :=
  match dirs with
  | [] => Some d
  | p :: rest =>
      match nodes d !! p with
      | Some Dir => mkdir_p d rest
      | Some (File _) => None
      | None =>
          if decide (p ∈ denied d) then None
          else mkdir_p (Disk (<[p := Dir]> (nodes d)) (denied d)) rest
      end
  end.

(** Modelled from the spec: section 4.2, step 2, for a file entry of the absent
    Write Policy Engine. *)
Definition apply_file (mode : WriteMode) (d : disk) (r : Resolved) (e : ManifestEntry)
  : disk * FileOutcome :=
  let p := absolutePath r in
  if exists_ r then
    if isDirectory r then (d, failed p TypeConflictError)
    else
      match mode with
      | Skip => (d, Outcome p Skipped None)
      | Force | Overwrite =>
          match write_file d p (render e) with
          | Some d' => (d', Outcome p Overwritten None)
          | None => (d, failed p IOFailure)
          end
      end
  else
    match write_file d p (render e) with
    | Some d' => (d', Outcome p Created None)
    | None => (d, failed p IOFailure)
    end.

(** Modelled from the spec: section 4.2, step 2, for a directory entry of the
    absent Write Policy Engine. *)
Definition apply_directory (root : string) (d : disk) (r : Resolved) (e : ManifestEntry)
  : disk * FileOutcome :=
  let p := absolutePath r in
  if exists_ r then
    if isDirectory r then (d, Outcome p Skipped None)
    else (d, failed p TypeConflictError)
  else
    let segs := filter (fun s => proper_segment s = true) (segments (relativePath e)) in
    match mkdir_p d (chain root segs) with
    | Some d' => (d', Outcome p Created None)
    | None => (d, failed p IOFailure)
    end.

(** Modelled from the spec: one manifest entry in the absent Write Policy
    Engine: an invalid path is fatal (section 7) and leaves the disk as it
    is; every other failure is an outcome. *)
Definition apply_entry (root : string) (mode : WriteMode) (d : disk) (e : ManifestEntry)
  : disk * (Error + FileOutcome) :=
  match resolve d root (relativePath e) with
  | inl err => (d, inl err)
  | inr r =>
      match kind e with
      | Directory => let '(d', o) := apply_directory root d r e in (d', inr o)
      | StaticFile | TemplatedFile => let '(d', o) := apply_file mode d r e in (d', inr o)
      end
  end.

(** Modelled from the spec: the creation pass of the absent Write Policy Engine,
    in manifest order; it stops at a fatal error. *)
Fixpoint apply_entries (root : string) (mode : WriteMode) (d : disk)
    (manifest : list ManifestEntry) : disk * (Error + list FileOutcome) :=
  match manifest with
  | [] => (d, inr [])
  | e :: rest =>
      match apply_entry root mode d e with
      | (d', inl err) => (d', inl err)
      | (d', inr o) =>
          match apply_entries root mode d' rest with
          | (d'', inl err) => (d'', inl err)
          | (d'', inr os) => (d'', inr (o :: os))
          end
      end
  end.

(** Modelled from the spec: the top-level directories the tool owns
    (section 4.2, step 1), a constant of the absent engine. *)
Definition owned_roots : list string := ["app"; "src"].

(** Modelled from the spec: a path is an owned root or lies below it, for the
    deletion pass of the absent engine. *)
Definition under (top p : string) : bool :=
  String.eqb top p || String.prefix (top ++ "/") p.

(** Modelled from the spec: section 4.2, step 1, the deletion of one owned root
    by the absent Write Policy Engine. *)
Definition delete_root (root : string) (acc : disk * list FileOutcome) (top : string)
  : disk * list FileOutcome :=
  let '(d, os) := acc in
  let abs := join root top in
  match nodes d !! abs with
  | None => (d, os)
  | Some _ =>
      if decide (abs ∈ denied d) then (d, (os ++ [failed abs IOFailure])%list)
      else (Disk (filter (fun kv => under abs (fst kv) = false) (nodes d)) (denied d),
            (os ++ [Outcome abs Deleted None])%list)
  end.

(** Modelled from the spec: [apply(root, manifest, mode)] of section 4.2, the
    absent Write Policy Engine. *)
Definition apply (root : string) (manifest : list ManifestEntry) (mode : WriteMode) (d : disk)
  : disk * (Error + list FileOutcome) :=
  let '(d1, deleted) :=
    match mode with
    | Overwrite => fold_left (delete_root root) owned_roots (d, [])
    | _ => (d, [])
    end in
  match apply_entries root mode d1 manifest with
  | (d2, inl err) => (d2, inl err)
  | (d2, inr os) => (d2, inr (deleted ++ os)%list)
  end.

(** Modelled from the spec: the two formats of a config file (section 3,
    ConfigPatch); the patcher of [lib/generator.js] is absent. *)
Inductive Format := JsonLike | ScriptLike.

Section Patcher.
Context {V : Type} `{EqDecision V}.

(** Modelled from the spec: a config file as the absent patcher reads it:
    text that does not parse, or a document in one format with its top-level
    sections in order. *)
Inductive content :=
| Garbled (raw : string)
| Structured (fmt : Format) (doc : list (string * V)).

(** Modelled from the spec: the config files the absent patcher works on, and
    the paths on which a write raises. *)
Record config_disk := ConfigDisk {
  files : gmap string content;
  locked : gset string
}.

(** Modelled from the spec: the result of the absent [patch] (section 4.3). *)
Record PatchResult := Patched {
  changed : bool;
  outcome : FileOutcome
}.

(** Modelled from the spec: the parse step of the absent patcher (section 4.3);
    a document written in the other format does not parse. *)
Definition parse (format : Format) (c : content) : option (list (string * V)) :=
  match c with
  | Garbled _ => None
  | Structured fmt doc =>
      match fmt, format with
      | JsonLike, JsonLike | ScriptLike, ScriptLike => Some doc
      | _, _ => None
      end
  end.

(** Modelled from the spec: a section is present in a document, for the absent
    patcher. *)
Definition has_key (k : string) (doc : list (string * V)) : bool :=
  existsb (fun kv => String.eqb (fst kv) k) doc.

(** Modelled from the spec: the overwrite of one section by the absent
    patcher, in place. *)
Definition put (k : string) (v : V) (kv : string * V) : string * V :=
  if String.eqb (fst kv) k then (fst kv, v) else kv.

(** Modelled from the spec: the merge rule [AddIfMissing] (section 3) of the
    absent patcher: insert only if absent, after the existing sections. *)
Definition AddIfMissing (k : string) (v : V) (doc : list (string * V)) : list (string * V) :=
  if has_key k doc then doc else (doc ++ [(k, v)])%list.

(** Modelled from the spec: the merge rule [ReplaceIfForced] (section 3) of
    the absent patcher: overwrite the value even if present. *)
Definition ReplaceIfForced (k : string) (v : V) (doc : list (string * V)) : list (string * V) :=
  if has_key k doc then map (put k v) doc else (doc ++ [(k, v)])%list.

(** Modelled from the spec: the rule the absent patcher applies to one required
    section (section 4.3): [AddIfMissing] unless forced. *)
Definition rule (forced : bool) (doc : list (string * V)) (kv : string * V) : list (string * V) :=
  if forced then ReplaceIfForced (fst kv) (snd kv) doc
  else AddIfMissing (fst kv) (snd kv) doc.

(** Modelled from the spec: the merge of the required sections into a
    document by the absent patcher (section 4.3). *)
Definition merge (forced : bool) (requiredSections : list (string * V))
    (doc : list (string * V)) : list (string * V) :=
  fold_left (rule forced) requiredSections doc.

(** Modelled from the spec: the section a member has become once every forced
    replacement of the absent patcher has been applied to it. *)
Definition settle (requiredSections : list (string * V)) (kv : string * V) : string * V :=
  fold_left (fun e r => put (fst r) (snd r) e) requiredSections kv.

(** Modelled from the spec: the write-back of the absent patcher, which
    raises on a refused path. *)
Definition write_config (cd : config_disk) (filePath : string) (c : content) : option config_disk :=
  if decide (filePath ∈ locked cd) then None
  else Some (ConfigDisk (<[filePath := c]> (files cd)) (locked cd)).

(** Modelled from the spec: [patch(filePath, format, requiredSections, forced)]
    of section 4.3, absent from the sources, with the disk it reads and
    writes. *)
Definition patch (cd : config_disk) (filePath : string) (format : Format)
    (requiredSections : list (string * V)) (forced : bool) : config_disk * PatchResult :=
  match files cd !! filePath with
  | None =>
      match write_config cd filePath (Structured format (merge forced requiredSections [])) with
      | Some cd' => (cd', Patched true (Outcome filePath Created None))
      | None => (cd, Patched false (failed filePath IOFailure))
      end
  | Some c =>
      match parse format c with
      | None => (cd, Patched false (failed filePath MalformedConfigError))
      | Some doc =>
          let doc' := merge forced requiredSections doc in
          if decide (doc' = doc) then (cd, Patched false (Outcome filePath Skipped None))
          else
            match write_config cd filePath (Structured format doc') with
            | Some cd' => (cd', Patched true (Outcome filePath Overwritten None))
            | None => (cd, Patched false (failed filePath IOFailure))
            end
      end
  end.

End Patcher.

Arguments content V : clear implicits.
Arguments config_disk V : clear implicits.

(** A manifest and a disk on which the engine is run below. *)
Definition sample_file : ManifestEntry :=
  Entry "src/features/home/HomeViewModel.ts" TemplatedFile
        (TemplatedBody "Home" (fun name => "export class " ++ name ++ "ViewModel {}")).

Definition sample_disk : disk :=
  Disk (<["/p/src" := Dir]> (<["/p/src/services/api.ts" := File "// mine"]> ∅))
       {["/p/src/theme/Colors.ts"]}.

Definition sample_present : ManifestEntry :=
  Entry "src/services/api.ts" StaticFile (StaticBody "export const api = {};").

Definition sample_escape : ManifestEntry :=
  Entry "src/../../etc/passwd" StaticFile (StaticBody "x").

End Core.

(** ** The script as the event loop runs it *)

Module Script.
Import Js Cli.

(** An [async] function as a sequence of effects, with the points at which
    it waits: what comes after an [Await] runs in a later turn of the event
    loop. *)
Inductive proc (A : Type) : Type :=
| Settled (c : completion A)
| Effect (e : event) (k : proc A)
| Await (k : proc A).
Arguments Settled {A} c.
Arguments Effect {A} e k.
Arguments Await {A} k.

(** Sequencing: the rest runs once the first part has completed normally. *)
Fixpoint and_then {A B} (p : proc A) (k : A -> proc B) : proc B :=
  match p with
  | Settled (Ok a) => k a
  | Settled (Throw e) => Settled (Throw e)
  | Settled Halt => Settled Halt
  | Effect e p' => Effect e (and_then p' k)
  | Await p' => Await (and_then p' k)
  end.

(** [try { p } catch (error) { handler }] around code that waits. *)
Fixpoint catching {A} (p : proc A) (handler : error -> proc A) : proc A :=
  match p with
  | Settled (Throw e) => handler e
  | Settled c => Settled c
  | Effect e p' => Effect e (catching p' handler)
  | Await p' => Await (catching p' handler)
  end.

(** [await p]: the callee runs, and the caller resumes in a later turn once
    the promise has settled. *)
Fixpoint awaited {A} (p : proc A) : proc A :=
  match p with
  | Settled c => Await (Settled c)
  | Effect e p' => Effect e (awaited p')
  | Await p' => Await (awaited p')
  end.

(** Code that does not wait. *)
Fixpoint effects {A} (tr : list event) (c : completion A) : proc A :=
  match tr with
  | [] => Settled c
  | e :: rest => Effect e (effects rest c)
  end.

Definition synchronous {A} (m : M A) : proc A := effects (fst m) (snd m).

(** [validateProjectDirectory], with its [await fs.pathExists] and
    [await fs.readJson]. *)
Fixpoint check_required_async (w : world) (currentDir : string) (files : list string)
  : proc unit :=
  match files with
  | [] => Settled (Ok tt)
  | file :: rest =>
      let filePath := path_join currentDir file in
      and_then (awaited (Settled (Ok (pathExists w filePath))))
        (fun found =>
           if negb found
           then Settled (Throw (Error ("Not a valid Expo project directory. Missing: " ++ file)))
           else check_required_async w currentDir rest)
  end.

Definition validateProjectDirectory_async (w : world) (currentDir : string) : proc unit :=
  and_then (check_required_async w currentDir requiredFiles)
    (fun _ =>
       let packageJsonPath := path_join currentDir "package.json" in
       and_then (awaited (Settled (readJson w packageJsonPath)))
         (fun packageJson =>
            and_then (synchronous (lacks_expo packageJson))
              (fun missing =>
                 if missing then Settled (Throw (Error not_expo_message))
                 else Settled (Ok tt)))).

(** The callback given to [program.action], with its two [await]s. *)
Definition action_async (w : world) (o : options) : proc unit :=
  catching
    (Effect (ConsoleLog MsgCreating)
       (let currentDir := cwd w in
        and_then (awaited (validateProjectDirectory_async w currentDir))
          (fun _ =>
             let opts := generator_options_of o in
             Effect (NewStructureGenerator currentDir opts)
               (and_then (awaited (Effect Generate (Settled (core w currentDir opts))))
                  (fun _ => synchronous (showSuccessMessage o))))))
    (fun error =>
       Effect (ConsoleError (MsgError (message error)))
         (Effect (ConsoleLog MsgTip)
            (Effect (ProcessExit 1) (Settled Halt)))).

(** The function followed through all its turns. *)
Fixpoint run {A} (p : proc A) : M A :=
  match p with
  | Settled c => ([], c)
  | Effect e k => let '(tr, c) := run k in (e :: tr, c)
  | Await k => run k
  end.

(** What the function does before it first waits. *)
Fixpoint first_turn {A} (p : proc A) : list event :=
  match p with
  | Effect e k => e :: first_turn k
  | _ => []
  end.

(** What the process writes and does: the effects of the action, the help
    text, the version, and commander's error for an option it does not
    know. *)
Inductive output :=
| Ran (e : event)
| OutputHelp
| OutputVersion
| OutputUnknownOption (flag : string).

(** The process from the moment commander calls the action with the options
    it has read.  The action runs to its first [await]; then, when no
    argument was given ([process.argv.length === 2]), [program.help()]
    prints the help and ends the process with status 0; otherwise the event
    loop runs the action to its end. *)
Definition after_parse (w : world) (no_arguments : bool) (o : options) : list output :=
  if no_arguments
  then (map Ran (first_turn (action_async w o)) ++ [OutputHelp; Ran (ProcessExit 0)])%list
  else map Ran (trace (run (action_async w o))).

(** The last statements of the script, for the arguments after the script
    name: [program.parse(process.argv)] and
    [if (process.argv.length === 2) program.help()]. *)
Definition script (w : world) (args : list string) : list output :=
  match parse args with
  | Runs o =>
      after_parse w match args with
                    | [] => true
                    | _ :: _ => false
                    end o
  | PrintsVersion => [OutputVersion; Ran (ProcessExit 0)]
  | PrintsHelp => [OutputHelp; Ran (ProcessExit 0)]
  | Rejects flag => [OutputUnknownOption flag; Ran (ProcessExit 1)]
  end.

Definition ran (out : output) : list event :=
  match out with
  | Ran e => [e]
  | _ => []
  end.

(** The effects of the program among what the process did. *)
Definition events_of (outs : list output) : list event := concat (map ran outs).

End Script.

(** ** The local test script *)

Module Harness.
Import Js Cli.

(** The object literal given to [new StructureGenerator(testProjectPath, ...)]:
    a member that is not written is [undefined]. *)
Record generator_args := GeneratorArgs {
  arg_force : option bool;
  arg_overwrite : option bool
}.

(** What the test script prints, one constructor per [console.log]. *)
Inductive report :=
| SettingUp                 (* 'Setting up test project...' *)
| SetupComplete             (* 'Test project setup complete' *)
| StartingTests             (* 'Starting Local Tests...' *)
| Test1                     (* 'Test 1: Basic generation (skip existing)' *)
| Test2                     (* 'Test 2: Force overwrite' *)
| Test3                     (* 'Test 3: Clean overwrite' *)
| Verifying                 (* 'Verifying generated structure...' *)
| Found (file : string)     (* the file name after a check mark *)
| EmptyFile (file : string) (* 'Empty file: ' + file *)
| Missing (file : string)   (* 'Missing: ' + file *)
| VerificationPassed        (* 'Structure verification passed!' *)
| AllPassed.                (* 'All tests passed!' *)

Inductive step :=
| Print (r : report)
| PrintFailure (e : error)  (* console.error('Test failed:', error) *)
| Construct (dir : string) (args : generator_args)
| CallGenerate
| Exit (code : Z).

(** The environment of the test script: the directory of the script and
    what [generate()] of a generator constructed with the given arguments
    does to the disk. *)
Record env := Env {
  dirname : string;
  generate : string -> generator_args -> gmap string node -> gmap string node * completion unit
}.

(** Effects of the test script: steps, the disk, a completion. *)
Definition T (A : Type) : Type :=
  gmap string node -> (list step * gmap string node * completion A)%type.

Definition tret {A} (a : A) : T A := fun d => ([], d, Ok a).

Definition tbind {A B} (m : T A) (k : A -> T B) : T B :=
  fun d =>
    match m d with
    | (tr, d', Ok a) => let '(tr', d'', r) := k a d' in ((tr ++ tr')%list, d'', r)
    | (tr, d', Throw e) => (tr, d', Throw e)
    | (tr, d', Halt) => (tr, d', Halt)
    end.

Notation "x <~ m ; k" := (tbind m (fun x => k))
  (at level 100, m at next level, right associativity).
Notation "m ;> k" := (tbind m (fun _ => k))
  (at level 100, right associativity).

Definition tstep (st : step) : T unit := fun d => ([st], d, Ok tt).
Definition print (r : report) : T unit := tstep (Print r).
Definition tthrow {A} (msg : string) : T A := fun d => ([], d, Throw (Error msg)).
Definition texit {A} (code : Z) : T A := fun d => ([Exit code], d, Halt).

Definition ttry {A} (body : T A) (handler : error -> T A) : T A :=
  fun d =>
    match body d with
    | (tr, d', Throw e) => let '(tr', d'', r) := handler e d' in ((tr ++ tr')%list, d'', r)
    | other => other
    end.

(** [fs.ensureDir]: a directory that is there is kept; a file in its place
    is an error. *)
Definition ensureDir (p : string) : T unit :=
  fun d =>
    match d !! p with
    | Some Folder => ([], d, Ok tt)
    | Some _ => ([], d, Throw (Error ("EEXIST: file already exists, mkdir '" ++ p ++ "'")))
    | None => ([], <[p := Folder]> d, Ok tt)
    end.

(** [fs.writeJson]: the file is created or replaced; a directory in its
    place is an error. *)
Definition writeJson (p : string) (v : json) : T unit :=
  fun d =>
    match d !! p with
    | Some Folder => ([], d, Throw (Error "EISDIR: illegal operation on a directory, open"))
    | _ => ([], <[p := JsonFile v]> d, Ok tt)
    end.

Definition tpathExists (p : string) : T bool :=
  fun d => ([], d, Ok (match d !! p with Some _ => true | None => false end)).

(** [content.length === 0] for the content [fs.readFile(filePath, 'utf8')]
    returns: text that parses as JSON is never empty. *)
Definition readFile_is_empty (p : string) : T bool :=
  fun d =>
    match d !! p with
    | Some (Unparseable raw) => ([], d, Ok (String.eqb raw ""))
    | Some (JsonFile _) => ([], d, Ok false)
    | Some Folder => ([], d, Throw (Error "EISDIR: illegal operation on a directory, read"))
    | None => ([], d, Throw (Error ("ENOENT: no such file or directory, open '" ++ p ++ "'")))
    end.

Definition setupTestProject (en : env) : T string :=
  let testProjectPath := path_join (dirname en) "test-expo-project" in
  print SettingUp ;>
  ensureDir testProjectPath ;>
  writeJson (path_join testProjectPath "package.json") test_package_json ;>
  writeJson (path_join testProjectPath "app.json") test_app_json ;>
  print SetupComplete ;>
  tret testProjectPath.

Definition expectedFiles : list string :=
  ["app/_layout.tsx";
   "app/index.tsx";
   "app/(home)/index.tsx";
   "app/(settings)/index.tsx";
   "app/(profile)/index.tsx";
   "src/components/Button/index.ts";
   "src/components/Button/Button.tsx";
   "src/components/Button/Button.styles.ts";
   "src/screens/home/HomeContainer.tsx";
   "src/screens/home/HomeView.tsx";
   "src/features/home/HomeViewModel.ts"].

(** The [for (const file of expectedFiles)] loop of [verifyStructure], with
    the flag [allFilesExist] it updates. *)
Fixpoint verify_loop (projectPath : string) (files : list string) (allFilesExist : bool)
  : T bool :=
  match files with
  | [] => tret allFilesExist
  | file :: rest =>
      let filePath := path_join projectPath file in
      found <~ tpathExists filePath ;
      if found then
        print (Found file) ;>
        empty <~ readFile_is_empty filePath ;
        if empty then
          print (EmptyFile file) ;>
          verify_loop projectPath rest false
        else verify_loop projectPath rest allFilesExist
      else
        print (Missing file) ;>
        verify_loop projectPath rest false
  end.

Definition verification_failed : string := "Structure verification failed".

Definition verifyStructure (projectPath : string) : T unit :=
  print Verifying ;>
  allFilesExist <~ verify_loop projectPath expectedFiles true ;
  if negb allFilesExist then tthrow verification_failed
  else print VerificationPassed.

(** One test: the headline, the construction, and [await generate()]. *)
Definition generation (en : env) (headline : report) (projectPath : string)
    (args : generator_args) : T unit :=
  print headline ;>
  tstep (Construct projectPath args) ;>
  tstep CallGenerate ;>
  (fun d => let '(d', c) := generate en projectPath args d in ([], d', c)).

Definition runTests (en : env) : T unit :=
  ttry
    (print StartingTests ;>
     testProjectPath <~ setupTestProject en ;
     generation en Test1 testProjectPath (GeneratorArgs (Some false) None) ;>
     generation en Test2 testProjectPath (GeneratorArgs (Some true) None) ;>
     generation en Test3 testProjectPath (GeneratorArgs None (Some true)) ;>
     verifyStructure testProjectPath ;>
     print AllPassed)
    (fun error =>
       tstep (PrintFailure error) ;>
       texit 1).

(** What the [catch] of [runTests] adds when the body has thrown. *)
Definition failure_steps {A} (c : completion A) : list step :=
  match c with
  | Throw e => [PrintFailure e; Exit 1]
  | _ => []
  end.

Definition test_project_path (en : env) : string :=
  path_join (dirname en) "test-expo-project".

(** A file at a path that holds some text. *)
Definition has_content (d : gmap string node) (p : string) : Prop :=
  exists n, d !! p = Some n /\ n <> Folder /\ n <> Unparseable "".

Definition good_file (d : gmap string node) (p : string) : bool :=
  match d !! p with
  | Some (Unparseable raw) => negb (String.eqb raw "")
  | Some (JsonFile _) => true
  | _ => false
  end.

(** What the loop prints first for a file. *)
Definition first_report (d : gmap string node) (projectPath file : string) : step :=
  match d !! path_join projectPath file with
  | Some _ => Print (Found file)
  | None => Print (Missing file)
  end.

Definition is_presence_report (st : step) : bool :=
  match st with
  | Print (Found _) | Print (Missing _) => true
  | _ => false
  end.

Definition constructions (tr : list step) : list generator_args :=
  concat (map (fun st => match st with Construct _ a => [a] | _ => [] end) tr).

(** A generator for the tests below: it writes every expected file with
    some text, whatever it is asked. *)
Definition writing_generator (dir : string) (_ : generator_args) (d : gmap string node)
  : gmap string node * completion unit :=
  (fold_right (fun f acc => <[path_join dir f := Unparseable "export {};"]> acc) d expectedFiles,
   Ok tt).

End Harness.

(** * Properties of the entry point *)

Section EntryPoint.
Import Js Cli.

(** Validation prints nothing and never ends the process. *)
Lemma check_required_silent w dir fs : fst (check_required w dir fs) = [].
Proof.
  induction fs as [|f fs IH]; simpl; [reflexivity|].
  destruct (pathExists w (path_join dir f)); simpl; [exact IH | reflexivity].
Qed.

Lemma validate_unfold w :
  validateProjectDirectory w (cwd w) =
  if negb (pathExists w (package_json w))
  then throw "Not a valid Expo project directory. Missing: package.json"
  else if negb (pathExists w (app_json w))
  then throw "Not a valid Expo project directory. Missing: app.json"
  else
    match readJson w (package_json w) with
    | Ok pkg =>
        match lacks_expo pkg with
        | (_, Ok true) => throw not_expo_message
        | (_, Ok false) => ret tt
        | (_, Throw e) => ([], Throw e)
        | (_, Halt) => ([], Halt)
        end
    | Throw e => ([], Throw e)
    | Halt => ([], Halt)
    end.
Proof.
  unfold validateProjectDirectory, requiredFiles, package_json, app_json. simpl.
  destruct (pathExists w (path_join (cwd w) "package.json")); simpl; [|reflexivity].
  destruct (pathExists w (path_join (cwd w) "app.json")); simpl; [|reflexivity].
  destruct (readJson w (path_join (cwd w) "package.json")) as [pkg|e|]; simpl; try reflexivity.
  unfold lacks_expo.
  destruct (get_prop pkg "dependencies") as [deps|e|]; simpl; try reflexivity.
  destruct (truthy deps); simpl; [|reflexivity].
  destruct deps as [d|]; simpl; [|reflexivity].
  destruct (get_prop d "expo") as [x|e|]; simpl; try reflexivity.
  destruct (truthy x); reflexivity.
Qed.

Lemma validate_silent w : fst (validateProjectDirectory w (cwd w)) = [].
Proof.
  rewrite validate_unfold.
  destruct (pathExists w (package_json w)); simpl; [|reflexivity].
  destruct (pathExists w (app_json w)); simpl; [|reflexivity].
  destruct (readJson w (package_json w)) as [pkg|e|]; simpl; try reflexivity.
  destruct (lacks_expo pkg) as [tr [[|]|e|]]; reflexivity.
Qed.

Lemma readJson_never_halts w p : readJson w p <> Halt.
Proof. unfold readJson. destruct (disk w !! p) as [[| |]|]; done. Qed.

Lemma lacks_expo_never_halts pkg : snd (lacks_expo pkg) <> Halt.
Proof.
  unfold lacks_expo. destruct pkg; simpl; try done.
  destruct (obj_get "dependencies" members) as [d|]; simpl; [|done].
  destruct d as [|b|m x|s|xs|ms]; simpl; try done.
  - destruct b; done.
  - destruct (rounds_to_zero m x); done.
  - destruct (String.eqb s ""); done.
Qed.

Lemma validate_never_halts w : snd (validateProjectDirectory w (cwd w)) <> Halt.
Proof.
  rewrite validate_unfold.
  destruct (pathExists w (package_json w)); simpl; [|done].
  destruct (pathExists w (app_json w)); simpl; [|done].
  pose proof (readJson_never_halts w (package_json w)) as Hr.
  destruct (readJson w (package_json w)) as [pkg|e|]; simpl; try done.
  pose proof (lacks_expo_never_halts pkg) as Hl.
  destruct (lacks_expo pkg) as [tr [[|]|e|]]; simpl in *; done.
Qed.

(** The two ways the action can go, by the result of the validation. *)
Lemma action_rejected w o e :
  validateProjectDirectory w (cwd w) = ([], Throw e) ->
  action w o = (rejection_trace e, Halt).
Proof. intros Hv. unfold action. simpl. rewrite Hv. reflexivity. Qed.

Lemma showSuccessMessage_run o : showSuccessMessage o = (success_lines o, Ok tt).
Proof.
  unfold showSuccessMessage, success_lines.
  destruct (or_false (skipDeps o)); reflexivity.
Qed.

Lemma action_accepted w o :
  validateProjectDirectory w (cwd w) = ([], Ok tt) ->
  action w o =
  match core w (cwd w) (generator_options_of o) with
  | Ok _ => ((started w o ++ success_lines o)%list, Ok tt)
  | Throw e =>
      ((started w o ++
        [ConsoleError (MsgError (message e)); ConsoleLog MsgTip; ProcessExit 1])%list, Halt)
  | Halt => (started w o, Halt)
  end.
Proof.
  intros Hv. unfold action. simpl. rewrite Hv. simpl.
  destruct (core w (cwd w) (generator_options_of o)) as [[]|e|]; simpl.
  - rewrite showSuccessMessage_run. reflexivity.
  - reflexivity.
  - reflexivity.
Qed.

Lemma validate_cases w :
  (exists e, validateProjectDirectory w (cwd w) = ([], Throw e)) \/
  validateProjectDirectory w (cwd w) = ([], Ok tt).
Proof.
  pose proof (validate_silent w) as Hs. pose proof (validate_never_halts w) as Hh.
  destruct (validateProjectDirectory w (cwd w)) as [tr [[]|e|]]; simpl in *; subst.
  - right; reflexivity.
  - left; eauto.
  - congruence.
Qed.

(** The test [!packageJson.dependencies || !packageJson.dependencies.expo],
    by the shape of the parsed manifest. *)
Lemma lacks_expo_spec pkg :
  lacks_expo pkg =
  match pkg with
  | JNull => ([], Throw (Error "Cannot read properties of null (reading 'dependencies')"))
  | JObj members =>
      match obj_get "dependencies" members with
      | Some (JObj deps) => ([], Ok (negb (truthy (obj_get "expo" deps))))
      | _ => ([], Ok true)
      end
  | _ => ([], Ok true)
  end.
Proof.
  unfold lacks_expo. destruct pkg as [|b|m x|s|xs|ms]; try reflexivity. simpl.
  destruct (obj_get "dependencies" ms) as [d|]; [|reflexivity].
  destruct d as [|b|m x|s|xs|deps]; simpl; try reflexivity.
  - destruct b; reflexivity.
  - destruct (rounds_to_zero m x); reflexivity.
  - destruct (String.eqb s ""); reflexivity.
Qed.

Lemma undeclared_lacks_expo pkg :
  declares "dependencies" "expo" pkg = false ->
  lacks_expo pkg = ([], Ok true) \/ exists e, lacks_expo pkg = ([], Throw e).
Proof.
  intros Hd. rewrite lacks_expo_spec. unfold declares in Hd.
  destruct pkg as [|b|m x|s|xs|ms]; eauto.
  destruct (obj_get "dependencies" ms) as [[|b|m x|s|xs|deps]|]; eauto.
  destruct (obj_get "expo" deps); [discriminate Hd | left; reflexivity].
Qed.

Lemma accepted_declares pkg :
  lacks_expo pkg = ([], Ok false) -> declares "dependencies" "expo" pkg = true.
Proof.
  rewrite lacks_expo_spec. unfold declares.
  destruct pkg as [|b|m x|s|xs|ms]; try discriminate.
  destruct (obj_get "dependencies" ms) as [[|b|m x|s|xs|deps]|]; try discriminate.
  destruct (obj_get "expo" deps); [reflexivity | discriminate].
Qed.

Lemma invalid_project_rejected w :
  invalid_project w -> exists e, validateProjectDirectory w (cwd w) = ([], Throw e).
Proof.
  intros Hinv. rewrite validate_unfold.
  destruct (pathExists w (package_json w)) eqn:Hp; simpl; [|eauto].
  destruct (pathExists w (app_json w)) eqn:Ha; simpl; [|eauto].
  destruct Hinv as [Hinv | [Hinv | (pkg & Hr & Hd)]]; [congruence | congruence |].
  rewrite Hr. destruct (undeclared_lacks_expo pkg Hd) as [-> | [e ->]]; eauto.
Qed.

Lemma rejection_observed e :
  core_invoked (rejection_trace e) = false /\ exit_status (rejection_trace e) = 1%Z.
Proof. split; reflexivity. Qed.

Lemma success_lines_announce o : In (ConsoleLog MsgSuccess) (success_lines o).
Proof. unfold success_lines. simpl. left. reflexivity. Qed.

Lemma success_lines_are_logs o e : In e (success_lines o) -> exists l, e = ConsoleLog l.
Proof.
  unfold success_lines. intros Hin. apply in_app_or in Hin as [Hin | Hin].
  - apply in_map_iff in Hin as (l & <- & _). eauto.
  - apply in_app_or in Hin as [Hin | [<- | []]]; [|eauto].
    destruct (or_false (skipDeps o)); [destruct Hin | destruct Hin as [<- | []]; eauto].
Qed.

(** The four shapes of a run. *)
Lemma action_shapes w o :
  (exists e, validateProjectDirectory w (cwd w) = ([], Throw e) /\
             action w o = (rejection_trace e, Halt)) \/
  (validateProjectDirectory w (cwd w) = ([], Ok tt) /\
   ((core w (cwd w) (generator_options_of o) = Ok tt /\
     action w o = ((started w o ++ success_lines o)%list, Ok tt)) \/
    (exists e, core w (cwd w) (generator_options_of o) = Throw e /\
               action w o =
               ((started w o ++ [ConsoleError (MsgError (message e)); ConsoleLog MsgTip;
                                 ProcessExit 1])%list, Halt)) \/
    (core w (cwd w) (generator_options_of o) = Halt /\ action w o = (started w o, Halt)))).
Proof.
  destruct (validate_cases w) as [[e He] | Hv].
  - left. exists e. split; [exact He | exact (action_rejected w o e He)].
  - right. split; [exact Hv|]. rewrite (action_accepted w o Hv).
    destruct (core w (cwd w) (generator_options_of o)) as [[]|e|]; eauto.
Qed.

Lemma accepted_run_constructs w o :
  validateProjectDirectory w (cwd w) = ([], Ok tt) ->
  In (NewStructureGenerator (cwd w) (generator_options_of o)) (trace (action w o)).
Proof.
  intros Hv. rewrite (action_accepted w o Hv).
  destruct (core w (cwd w) (generator_options_of o)); simpl; tauto.
Qed.

(** A generator that a run constructs is constructed with the working
    directory and the options of the run. *)
Lemma action_constructs w o dir g :
  In (NewStructureGenerator dir g) (trace (action w o)) ->
  dir = cwd w /\ g = generator_options_of o.
Proof.
  assert (Hst : forall tl, In (NewStructureGenerator dir g) (started w o ++ tl) ->
                ~ In (NewStructureGenerator dir g) tl ->
                dir = cwd w /\ g = generator_options_of o).
  { intros tl Hin Htl. apply in_app_or in Hin as [Hin | Hin]; [|destruct (Htl Hin)].
    destruct Hin as [Hin | [Hin | [Hin | []]]]; try discriminate Hin.
    injection Hin as <- <-. split; reflexivity. }
  destruct (action_shapes w o)
    as [(e & Hv & ->) | (Hv & [(Hc & ->) | [(e & Hc & ->) | (Hc & ->)]])];
    unfold trace; cbn [fst]; intros Hin.
  - unfold rejection_trace in Hin.
    repeat (destruct Hin as [Hin | Hin]; [discriminate Hin|]). destruct Hin.
  - apply (Hst _ Hin). intros Hbad.
    destruct (success_lines_are_logs o _ Hbad) as [l Hl]. discriminate Hl.
  - apply (Hst _ Hin). intros Hbad.
    repeat (destruct Hbad as [Hbad | Hbad]; [discriminate Hbad|]). exact Hbad.
  - apply (Hst []); [rewrite app_nil_r; exact Hin | intros []].
Qed.

(** C9: the validation accepts a project only when its [package.json]
    declares expo under [dependencies]; a manifest that declares expo under
    another section only, such as [devDependencies], is refused with the
    not-an-Expo-project error. *)
Theorem expo_must_be_under_dependencies (w : world) (pkg : json) :
  pathExists w (package_json w) = true ->
  pathExists w (app_json w) = true ->
  readJson w (package_json w) = Ok pkg ->
  (validateProjectDirectory w (cwd w) = ([], Ok tt) ->
   declares "dependencies" "expo" pkg = true) /\
  (forall section,
     declares section "expo" pkg = true ->
     declares "dependencies" "expo" pkg = false ->
     validateProjectDirectory w (cwd w) = ([], Throw (Error not_expo_message))).
Proof.
  intros Hp Ha Hr. rewrite validate_unfold, Hp, Ha, Hr. simpl. split.
  - intros Hv. apply accepted_declares.
    pose proof (lacks_expo_spec pkg) as Hs.
    destruct (lacks_expo pkg) as [tr [[|]|e|]]; try discriminate Hv.
    rewrite Hs.
    destruct pkg as [|b|m x|s|xs|ms]; try discriminate Hs.
    destruct (obj_get "dependencies" ms) as [[|b|m x|s|xs|deps]|]; try discriminate Hs.
    injection Hs as _ Hb. rewrite <- Hb. reflexivity.
  - intros section Hsec Hd. rewrite lacks_expo_spec.
    unfold declares in Hsec, Hd.
    destruct pkg as [|b|m x|s|xs|ms]; try discriminate Hsec.
    destruct (obj_get "dependencies" ms) as [[|b|m x|s|xs|deps]|]; try reflexivity.
    destruct (obj_get "expo" deps); [discriminate Hd | reflexivity].
Qed.

Lemma expo_must_be_under_dependencies_witness :
  declares "dependencies" "expo" test_package_json = true /\
  validateProjectDirectory
    (project (Some (JsonFile dev_only_package_json)) (Some (JsonFile test_app_json)))
    "/work/test-expo-project" = ([], Throw (Error not_expo_message)).
Proof.
  split.
  - apply (expo_must_be_under_dependencies test_project test_package_json);
      vm_compute; reflexivity.
  - apply (expo_must_be_under_dependencies
             (project (Some (JsonFile dev_only_package_json)) (Some (JsonFile test_app_json)))
             dev_only_package_json eq_refl eq_refl eq_refl) with (section := "devDependencies");
      vm_compute; reflexivity.
Defined.

(** C8 (as the source has it): the script registers two process-wide
    listeners, for [uncaughtException] and [unhandledRejection]; each prints
    what it was given and exits with status 1. *)
Theorem process_wide_listeners_registered :
  map fst process_listeners = ["uncaughtException"; "unhandledRejection"] /\
  (forall err, on_uncaughtException err =
               ([ConsoleError (MsgUnexpected (message err)); ProcessExit 1], Halt)) /\
  (forall reason, on_unhandledRejection reason =
                  ([ConsoleError (MsgUnhandled reason); ProcessExit 1], Halt)).
Proof.
  split; [reflexivity|]. split; reflexivity.
Qed.

(** C8, as stated, fails: a listener for each of the two events is
    registered. *)
Lemma catch_all_listeners_present :
  ~ (forall name l, In (name, l) process_listeners ->
                    name <> "uncaughtException" /\ name <> "unhandledRejection").
Proof.
  intros Hnone.
  destruct (Hnone "uncaughtException" (OnError on_uncaughtException)) as [Hne _].
  - left. reflexivity.
  - apply Hne. reflexivity.
Qed.

End EntryPoint.

(** * The script across the turns of the event loop *)

Section EventLoop.
Import Js Cli Script.

Lemma run_and_then {A B} (p : proc A) (k : A -> proc B) :
  run (and_then p k) = bind (run p) (fun a => run (k a)).
Proof.
  induction p as [[a|e|]|e p IH|p IH]; simpl.
  - destruct (run (k a)) as [tr c]. reflexivity.
  - reflexivity.
  - reflexivity.
  - rewrite IH. unfold bind. destruct (run p) as [tr [a|e'|]]; try reflexivity.
    destruct (run (k a)) as [tr' c]. reflexivity.
  - exact IH.
Qed.

Lemma run_catching {A} (p : proc A) (h : error -> proc A) :
  run (catching p h) = try_catch (run p) (fun e => run (h e)).
Proof.
  induction p as [[a|e|]|e p IH|p IH]; simpl.
  - reflexivity.
  - destruct (run (h e)) as [tr c]. reflexivity.
  - reflexivity.
  - rewrite IH. unfold try_catch. destruct (run p) as [tr [a|e'|]]; try reflexivity.
    destruct (run (h e')) as [tr' c]. reflexivity.
  - exact IH.
Qed.

Lemma run_awaited {A} (p : proc A) : run (awaited p) = run p.
Proof.
  induction p as [c|e p IH|p IH]; simpl; [reflexivity | rewrite IH; reflexivity | exact IH].
Qed.

Lemma run_effects {A} (tr : list event) (c : completion A) : run (effects tr c) = (tr, c).
Proof. induction tr as [|e tr IH]; simpl; [reflexivity | rewrite IH; reflexivity]. Qed.

Lemma run_synchronous {A} (m : M A) : run (synchronous m) = m.
Proof. destruct m as [tr c]. apply run_effects. Qed.

Lemma run_check_required w dir files :
  run (check_required_async w dir files) = check_required w dir files.
Proof.
  induction files as [|f files IH]; simpl; [reflexivity|].
  destruct (pathExists w (path_join dir f)); simpl; [exact IH | reflexivity].
Qed.

Lemma bind_ext {A B} (m : M A) (k1 k2 : A -> M B) :
  (forall a, k1 a = k2 a) -> bind m k1 = bind m k2.
Proof.
  intros Hk. unfold bind. destruct m as [tr [a|e|]]; try reflexivity.
  rewrite Hk. reflexivity.
Qed.

Lemma run_validate w dir :
  run (validateProjectDirectory_async w dir) = validateProjectDirectory w dir.
Proof.
  unfold validateProjectDirectory_async, validateProjectDirectory.
  rewrite run_and_then, run_check_required. apply bind_ext. intros _.
  rewrite run_and_then, run_awaited. apply bind_ext. intros packageJson.
  rewrite run_and_then, run_synchronous. apply bind_ext. intros [|]; reflexivity.
Qed.

(** Followed through all its turns, the callback does what the sequential
    reading of it does. *)
Lemma run_action_async w o : run (action_async w o) = action w o.
Proof.
  unfold action_async. rewrite run_catching.
  cbn [run]. rewrite run_and_then, run_awaited, run_validate.
  destruct (validate_cases w) as [[e He] | Hv].
  - rewrite (action_rejected w o e He), He. reflexivity.
  - rewrite (action_accepted w o Hv), Hv. cbn [bind app]. cbn [run].
    rewrite run_and_then, run_awaited. cbn [run].
    destruct (core w (cwd w) (generator_options_of o)) as [[]|e|]; cbn [bind].
    + rewrite run_synchronous, showSuccessMessage_run. reflexivity.
    + reflexivity.
    + reflexivity.
Qed.

Lemma events_of_ran (tr : list event) : events_of (map Ran tr) = tr.
Proof.
  unfold events_of. induction tr as [|e tr IH]; simpl; [reflexivity|].
  f_equal. exact IH.
Qed.

(** *** The script, from the call of the action on *)

Lemma after_parse_with_arguments w o :
  after_parse w false o = map Ran (trace (action w o)).
Proof. unfold after_parse. rewrite run_action_async. reflexivity. Qed.

Lemma after_parse_bare w o :
  after_parse w true o = [Ran (ConsoleLog MsgCreating); OutputHelp; Ran (ProcessExit 0)].
Proof. reflexivity. Qed.

Lemma script_with_arguments w args o :
  args <> [] -> parse args = Runs o -> script w args = map Ran (trace (action w o)).
Proof.
  intros Hne Hp. unfold script. rewrite Hp.
  destruct args as [|a args]; [destruct (Hne eq_refl)|].
  apply after_parse_with_arguments.
Qed.

Lemma in_ran (e : event) (tr : list event) : In (Ran e) (map Ran tr) <-> In e tr.
Proof.
  rewrite in_map_iff. split.
  - intros (x & Hx & Hin). injection Hx as ->. exact Hin.
  - intros Hin. exists e. split; [reflexivity | exact Hin].
Qed.

(** Whatever the command line, a generator that the process constructs is
    constructed with the working directory and the options read. *)
Lemma script_constructs w args o dir g :
  parse args = Runs o ->
  In (Ran (NewStructureGenerator dir g)) (script w args) ->
  dir = cwd w /\ g = generator_options_of o.
Proof.
  intros Hp Hin. destruct args as [|a args].
  - unfold script in Hin. rewrite Hp, after_parse_bare in Hin.
    repeat (destruct Hin as [Hin | Hin]; [discriminate Hin|]). destruct Hin.
  - assert (Hne : a :: args <> []) by (intros Hnil; discriminate Hnil).
    rewrite (script_with_arguments w (a :: args) o Hne Hp) in Hin.
    apply in_ran in Hin. exact (action_constructs w o dir g Hin).
Qed.

Lemma script_constructs_when_accepted w args o :
  args <> [] -> parse args = Runs o ->
  validateProjectDirectory w (cwd w) = ([], Ok tt) ->
  In (Ran (NewStructureGenerator (cwd w) (generator_options_of o))) (script w args).
Proof.
  intros Hne Hp Hv. rewrite (script_with_arguments w args o Hne Hp).
  apply in_ran. exact (accepted_run_constructs w o Hv).
Qed.

(** C1 (for a command line with at least one argument): when the target
    directory lacks [package.json] or [app.json], or its [package.json] does
    not declare expo in its dependencies, the validation throws, the action
    prints the error, [StructureGenerator] is neither constructed nor run,
    and the process exits with status 1. *)
Theorem invalid_project_never_reaches_core (w : world) (o : options) :
  invalid_project w ->
  exists e,
    validateProjectDirectory w (cwd w) = ([], Throw e) /\
    after_parse w false o = map Ran (rejection_trace e) /\
    (forall args, args <> [] -> parse args = Runs o ->
                  script w args = map Ran (rejection_trace e)) /\
    core_invoked (events_of (after_parse w false o)) = false /\
    exit_status (events_of (after_parse w false o)) = 1%Z.
Proof.
  intros Hinv. destruct (invalid_project_rejected w Hinv) as [e He].
  exists e. rewrite after_parse_with_arguments, events_of_ran.
  rewrite (action_rejected w o e He). unfold trace; cbn [fst].
  split; [exact He|]. split; [reflexivity|]. split.
  - intros args Hne Hp. rewrite (script_with_arguments w args o Hne Hp).
    rewrite (action_rejected w o e He). reflexivity.
  - apply rejection_observed.
Qed.

Lemma invalid_project_never_reaches_core_witness :
  script (project None (Some (JsonFile test_app_json))) ["--force"] =
    map Ran (rejection_trace
               (Error "Not a valid Expo project directory. Missing: package.json")) /\
  script (project (Some (JsonFile test_package_json)) None) ["-o"] =
    map Ran (rejection_trace
               (Error "Not a valid Expo project directory. Missing: app.json")) /\
  script (project (Some (JsonFile dev_only_package_json)) (Some (JsonFile test_app_json)))
         ["--skip-deps"] =
    map Ran (rejection_trace (Error not_expo_message)).
Proof.
  split; [|split].
  - destruct (invalid_project_never_reaches_core
                (project None (Some (JsonFile test_app_json)))
                (Options (Some true) None None))
      as (e & Hv & _ & Hs & _).
    + left. vm_compute. reflexivity.
    + injection Hv as <-. apply Hs; [intros Hnil; discriminate Hnil | reflexivity].
  - destruct (invalid_project_never_reaches_core
                (project (Some (JsonFile test_package_json)) None)
                (Options None (Some true) None))
      as (e & Hv & _ & Hs & _).
    + right. left. vm_compute. reflexivity.
    + injection Hv as <-. apply Hs; [intros Hnil; discriminate Hnil | reflexivity].
  - destruct (invalid_project_never_reaches_core
                (project (Some (JsonFile dev_only_package_json))
                         (Some (JsonFile test_app_json)))
                (Options None None (Some true)))
      as (e & Hv & _ & Hs & _).
    + right. right. exists dev_only_package_json. split; vm_compute; reflexivity.
    + injection Hv as <-. apply Hs; [intros Hnil; discriminate Hnil | reflexivity].
Defined.

(** C1, as stated, fails: started with no argument in a directory without
    [package.json], commander calls the action, but the process prints the
    help and ends with status 0 before the directory is validated. *)
Lemma bare_command_line_skips_validation :
  ~ (forall w args o,
       parse args = Runs o ->
       invalid_project w ->
       exit_status (events_of (script w args)) <> 0%Z).
Proof.
  intros Hall.
  apply (Hall (project None (Some (JsonFile test_app_json))) [] no_options).
  - reflexivity.
  - left. vm_compute. reflexivity.
  - vm_compute. reflexivity.
Qed.

(** C10 (for a command line with at least one argument): a [package.json]
    that exists but does not parse makes the validation throw (the error of
    [JSON.parse] behind the path of the file, once [app.json] is there too);
    the
    action catches it, prints it and exits with status 1 before the core is
    constructed or run, so the failure is fatal and no report carries it. *)
Theorem unparseable_manifest_is_fatal (w : world) (o : options) (raw : string) :
  disk w !! package_json w = Some (Unparseable raw) ->
  exists e,
    validateProjectDirectory w (cwd w) = ([], Throw e) /\
    after_parse w false o = map Ran (rejection_trace e) /\
    (forall args, args <> [] -> parse args = Runs o ->
                  script w args = map Ran (rejection_trace e)) /\
    core_invoked (events_of (after_parse w false o)) = false /\
    exit_status (events_of (after_parse w false o)) = 1%Z /\
    (pathExists w (app_json w) = true ->
     e = Error (package_json w ++ ": " ++ syntax_error w raw)).
Proof.
  intros Hd.
  assert (Hv : exists e, validateProjectDirectory w (cwd w) = ([], Throw e) /\
                 (pathExists w (app_json w) = true ->
                  e = Error (package_json w ++ ": " ++ syntax_error w raw))).
  { rewrite validate_unfold. unfold pathExists, readJson. rewrite Hd. simpl.
    destruct (disk w !! app_json w); simpl; eexists; (split; [reflexivity|]);
      [reflexivity | discriminate]. }
  destruct Hv as (e & Hv & He). exists e.
  rewrite after_parse_with_arguments, events_of_ran.
  rewrite (action_rejected w o e Hv). unfold trace; cbn [fst].
  split; [exact Hv|]. split; [reflexivity|]. split.
  - intros args Hne Hp. rewrite (script_with_arguments w args o Hne Hp).
    rewrite (action_rejected w o e Hv). reflexivity.
  - destruct (rejection_observed e) as [Hc Hx].
    split; [exact Hc|]. split; [exact Hx | exact He].
Qed.

Lemma unparseable_manifest_is_fatal_witness :
  script (project (Some (Unparseable "")) (Some (JsonFile test_app_json))) ["-f"] =
  map Ran (rejection_trace
             (Error "/work/test-expo-project/package.json: Unexpected end of JSON input")).
Proof.
  destruct (unparseable_manifest_is_fatal
              (project (Some (Unparseable "")) (Some (JsonFile test_app_json)))
              (Options (Some true) None None) "")
    as (e & _ & _ & Hs & _ & _ & He).
  - vm_compute. reflexivity.
  - rewrite (Hs ["-f"]); [|intros Hnil; discriminate Hnil | reflexivity].
    rewrite He; reflexivity.
Defined.

(** C10, as stated, fails: started with no argument in a directory whose
    [package.json] does not parse, the process prints the help and ends with
    status 0; the manifest is never read. *)
Lemma bare_command_line_reads_no_manifest :
  ~ (forall w args o raw,
       parse args = Runs o ->
       disk w !! package_json w = Some (Unparseable raw) ->
       exit_status (events_of (script w args)) <> 0%Z).
Proof.
  intros Hall.
  apply (Hall (project (Some (Unparseable "")) (Some (JsonFile test_app_json)))
              [] no_options "").
  - reflexivity.
  - vm_compute. reflexivity.
  - vm_compute. reflexivity.
Qed.

(** The one place that reads [options.skipDeps], followed through a run. *)
Lemma skip_deps_trace w o :
  let given := Options (force o) (overwrite o) (Some true) in
  let absent := Options (force o) (overwrite o) None in
  trace (action w given) =
    List.filter (fun e => negb (is_install_signal e)) (trace (action w absent)) /\
  ~ In (ConsoleLog MsgInstallingDeps) (trace (action w given)) /\
  (In (ConsoleLog MsgSuccess) (trace (action w absent)) ->
   In (ConsoleLog MsgInstallingDeps) (trace (action w absent))).
Proof.
  intros given absent.
  assert (Hnone : forall l : list event,
            (forall x, In x l -> x <> ConsoleLog MsgInstallingDeps) ->
            ~ In (ConsoleLog MsgInstallingDeps) l)
    by (intros l Hl Hin; exact (Hl _ Hin eq_refl)).
  destruct (validate_cases w) as [[e He] | Hv].
  - rewrite (action_rejected w given e He), (action_rejected w absent e He).
    unfold trace; cbn [fst]. split; [reflexivity|]. split.
    + apply Hnone. intros x Hin.
      repeat (destruct Hin as [<- | Hin]; [discriminate|]). destruct Hin.
    + intros Hin. repeat (destruct Hin as [Hin | Hin]; [discriminate Hin|]). destruct Hin.
  - rewrite (action_accepted w given Hv), (action_accepted w absent Hv).
    change (generator_options_of given) with (generator_options_of absent).
    destruct (core w (cwd w) (generator_options_of absent)) as [[]|e|];
      unfold trace; cbn [fst].
    + split; [reflexivity|]. split.
      * apply Hnone. intros x Hin. simpl in Hin.
        repeat (destruct Hin as [<- | Hin]; [discriminate|]). destruct Hin.
      * intros _. simpl. tauto.
    + split; [reflexivity|]. split.
      * apply Hnone. intros x Hin. simpl in Hin.
        repeat (destruct Hin as [<- | Hin]; [discriminate|]). destruct Hin.
      * intros Hin. simpl in Hin.
        repeat (destruct Hin as [Hin | Hin]; [discriminate Hin|]). destruct Hin.
    + split; [reflexivity|]. split.
      * apply Hnone. intros x Hin. simpl in Hin.
        repeat (destruct Hin as [<- | Hin]; [discriminate|]). destruct Hin.
      * intros Hin. simpl in Hin.
        repeat (destruct Hin as [Hin | Hin]; [discriminate Hin|]). destruct Hin.
Qed.

(** C7 (for two command lines with at least one argument each): with
    [--skip-deps] the process does what it does without the flag, calls of
    [process.exit] included, less the one line that announces the
    installation; the generator is constructed with the same options, and
    neither run starts a package manager (no effect of the program does). *)
Theorem skip_deps_only_drops_install_signal (w : world) (o : options) :
  let given := Options (force o) (overwrite o) (Some true) in
  let absent := Options (force o) (overwrite o) None in
  events_of (after_parse w false given) =
    List.filter (fun e => negb (is_install_signal e))
                (events_of (after_parse w false absent)) /\
  (forall args args',
     args <> [] -> args' <> [] ->
     parse args = Runs given -> parse args' = Runs absent ->
     events_of (script w args) =
     List.filter (fun e => negb (is_install_signal e)) (events_of (script w args'))) /\
  generator_options_of given = generator_options_of absent /\
  ~ In (Ran (ConsoleLog MsgInstallingDeps)) (after_parse w false given) /\
  (In (Ran (ConsoleLog MsgSuccess)) (after_parse w false absent) ->
   In (Ran (ConsoleLog MsgInstallingDeps)) (after_parse w false absent)).
Proof.
  intros given absent.
  destruct (skip_deps_trace w o) as (Htr & Hno & Hyes). fold given absent in Htr, Hno, Hyes.
  rewrite !after_parse_with_arguments, !events_of_ran, !in_ran.
  split; [exact Htr|]. split.
  - intros args args' Hne Hne' Hp Hp'.
    rewrite (script_with_arguments w args given Hne Hp),
            (script_with_arguments w args' absent Hne' Hp'), !events_of_ran.
    exact Htr.
  - split; [reflexivity|]. split; [exact Hno | exact Hyes].
Qed.

(** C7, as stated, fails: [--skip-deps] alone runs the whole action, while
    the same command line without the flag is the empty one, on which the
    process prints the help and ends before it validates or generates. *)
Lemma skip_deps_alone_runs_the_action :
  ~ (forall w args,
       events_of (script w ("--skip-deps" :: args)) =
       List.filter (fun e => negb (is_install_signal e)) (events_of (script w args))).
Proof.
  intros Hall. specialize (Hall test_project []).
  vm_compute in Hall. discriminate Hall.
Qed.

(** X9: started with no argument, the script prints the first line of the
    action and the help and ends with status 0: [program.help()] ends the
    process while the action is still waiting for [fs.pathExists], so the
    directory is not validated and the generator is not constructed,
    whatever the directory holds. *)
Theorem no_argument_run_only_prints_help (w : world) :
  script w [] = [Ran (ConsoleLog MsgCreating); OutputHelp; Ran (ProcessExit 0)] /\
  core_invoked (events_of (script w [])) = false /\
  exit_status (events_of (script w [])) = 0%Z /\
  (forall e, ~ In (Ran (ConsoleError (MsgError e))) (script w [])).
Proof.
  assert (Hs : script w [] = [Ran (ConsoleLog MsgCreating); OutputHelp; Ran (ProcessExit 0)])
    by reflexivity.
  rewrite Hs. split; [reflexivity|]. split; [reflexivity|]. split; [reflexivity|].
  intros e Hin. repeat (destruct Hin as [Hin | Hin]; [discriminate Hin|]). destruct Hin.
Qed.

(** X10: started with at least one argument, on a command line for which
    commander calls the action, the script does not print the help: the
    process does what the action does, from its first line to its
    completion, and ends with the action's status. *)
Theorem run_with_flags_is_the_action (w : world) (args : list string) (o : options) :
  args <> [] ->
  parse args = Runs o ->
  script w args = map Ran (trace (action w o)) /\
  events_of (script w args) = trace (action w o) /\
  exit_status (events_of (script w args)) = exit_status (trace (action w o)) /\
  ~ In OutputHelp (script w args).
Proof.
  intros Hne Hp.
  assert (Hs : script w args = map Ran (trace (action w o)))
    by exact (script_with_arguments w args o Hne Hp).
  rewrite Hs, events_of_ran. split; [reflexivity|]. split; [reflexivity|].
  split; [reflexivity|].
  intros Hin. apply in_map_iff in Hin as (e & He & _). discriminate He.
Qed.

Lemma run_with_flags_is_the_action_witness :
  script (project None (Some (JsonFile test_app_json))) ["--skip-deps"] =
  map Ran (rejection_trace (Error "Not a valid Expo project directory. Missing: package.json")).
Proof.
  apply (run_with_flags_is_the_action
           (project None (Some (JsonFile test_app_json))) ["--skip-deps"]
           (Options None None (Some true))).
  - intros Hnil. discriminate Hnil.
  - reflexivity.
Defined.

End EventLoop.

(** * Properties of the engine *)

Section Engine.
Import Core.

Lemma segments_nonempty p : segments p <> [].
Proof.
  destruct p as [|c rest]; simpl; [done|].
  destruct (Ascii.eqb c slash); [done|].
  destruct (segments rest); done.
Qed.

(** Splitting distributes over a separator in the text. *)
Lemma segments_app_slash x y :
  segments (x ++ String slash y) = (segments x ++ segments y)%list.
Proof.
  induction x as [|c x IH]; simpl.
  - reflexivity.
  - destruct (Ascii.eqb c slash).
    + rewrite IH. reflexivity.
    + rewrite IH. pose proof (segments_nonempty x) as Hx.
      destruct (segments x) as [|s0 ss]; [done | reflexivity].
Qed.

(** A [../] at the start of the path or after a separator is a traversal
    segment. *)
Lemma traversal_in_text pre post :
  has_traversal ("../" ++ post) = true /\
  has_traversal (pre ++ "/../" ++ post) = true.
Proof.
  unfold has_traversal. split.
  - change ("../" ++ post) with (".." ++ String slash post).
    rewrite segments_app_slash, existsb_app. reflexivity.
  - change (pre ++ "/../" ++ post) with (pre ++ String slash (".." ++ String slash post)).
    rewrite !segments_app_slash, !existsb_app. simpl. apply orb_true_r.
Qed.

Lemma resolve_rejects d root rel :
  has_traversal rel = true \/ is_absolute rel = true ->
  resolve d root rel = inl InvalidPathError.
Proof.
  intros [Ht | Ha]; unfold resolve; [rewrite Ht | rewrite Ha, orb_true_r]; reflexivity.
Qed.

Lemma resolve_accepts d root rel :
  has_traversal rel || is_absolute rel = false ->
  resolve d root rel =
  inr match nodes d !! destination root rel with
      | None => Resolution (destination root rel) false false
      | Some Dir => Resolution (destination root rel) true true
      | Some (File _) => Resolution (destination root rel) true false
      end.
Proof.
  intros Hok. unfold resolve. rewrite Hok.
  destruct (nodes d !! destination root rel) as [[|c]|]; reflexivity.
Qed.

Lemma apply_file_not_skipped mode d r e :
  mode <> Skip -> action (snd (apply_file mode d r e)) <> Skipped.
Proof.
  intros Hm. unfold apply_file.
  destruct (exists_ r); [destruct (isDirectory r)|].
  - done.
  - destruct mode; [done | |]; destruct (write_file d (absolutePath r) (render e)); done.
  - destruct (write_file d (absolutePath r) (render e)); done.
Qed.

Lemma apply_entry_force_file root d e d' o :
  kind e <> Directory ->
  apply_entry root Force d e = (d', inr o) -> action o <> Skipped.
Proof.
  intros Hk. unfold apply_entry.
  destruct (resolve d root (relativePath e)) as [err|r]; [done|].
  pose proof (apply_file_not_skipped Force d r e) as Hns.
  destruct (kind e); [done | |];
    destruct (apply_file Force d r e) as [d1 o1]; simpl in Hns;
    intros [= _ <-]; apply Hns; done.
Qed.

Lemma force_creation_pass_never_skips_files root manifest : forall d d' os,
  apply_entries root Force d manifest = (d', inr os) ->
  Forall2 (fun e o => kind e <> Directory -> action o <> Skipped) manifest os.
Proof.
  induction manifest as [|e rest IH]; intros d d' os; simpl.
  - intros [= _ <-]. constructor.
  - destruct (apply_entry root Force d e) as [d1 [err|o]] eqn:He; [done|].
    destruct (apply_entries root Force d1 rest) as [d2 [err|os']] eqn:Hr; [done|].
    intros [= _ <-]. constructor.
    + intros Hk. exact (apply_entry_force_file root d e d1 o Hk He).
    + exact (IH d1 d2 os' Hr).
Qed.

(** C2: for a file entry the engine creates an absent destination, leaves a
    present one untouched in [Skip] mode and overwrites it in [Force] and
    [Overwrite] mode (the writes being allowed); in [Force] mode no file
    entry ends [Skipped], in one entry and over a whole run. *)
Theorem write_policy_for_files (root : string) (mode : WriteMode) (d : disk)
    (e : ManifestEntry) :
  kind e <> Directory ->
  has_traversal (relativePath e) || is_absolute (relativePath e) = false ->
  let p := destination root (relativePath e) in
  let written := Disk (<[p := File (render e)]> (nodes d)) (denied d) in
  (nodes d !! p = None -> p ∉ denied d ->
   apply_entry root mode d e = (written, inr (Outcome p Created None))) /\
  (forall c, nodes d !! p = Some (File c) -> mode = Skip ->
   apply_entry root mode d e = (d, inr (Outcome p Skipped None))) /\
  (forall c, nodes d !! p = Some (File c) -> mode = Force \/ mode = Overwrite ->
   p ∉ denied d ->
   apply_entry root mode d e = (written, inr (Outcome p Overwritten None))) /\
  (mode = Force ->
   forall d' o, apply_entry root mode d e = (d', inr o) -> action o <> Skipped) /\
  (forall manifest d0 d' os,
     apply root manifest Force d0 = (d', inr os) ->
     Forall2 (fun e o => kind e <> Directory -> action o <> Skipped) manifest os).
Proof.
  intros Hk Hok p written.
  assert (Hfile : apply_entry root mode d e =
            match resolve d root (relativePath e) with
            | inl err => (d, inl err)
            | inr r => let '(d', o) := apply_file mode d r e in (d', inr o)
            end).
  { unfold apply_entry. destruct (resolve d root (relativePath e)); [reflexivity|].
    destruct (kind e); [done | reflexivity | reflexivity]. }
  rewrite (resolve_accepts d root (relativePath e) Hok) in Hfile. fold p in Hfile.
  repeat apply conj.
  - intros Hn Hd. rewrite Hfile, Hn. unfold apply_file, write_file. simpl.
    destruct (decide (p ∈ denied d)); [done | reflexivity].
  - intros c Hc ->. rewrite Hfile, Hc. reflexivity.
  - intros c Hc Hm Hd. rewrite Hfile, Hc. unfold apply_file, write_file. simpl.
    destruct (decide (p ∈ denied d)); [done|].
    destruct Hm as [-> | ->]; reflexivity.
  - intros -> d' o. apply apply_entry_force_file. exact Hk.
  - intros manifest d0 d' os. unfold apply.
    destruct (apply_entries root Force d0 manifest) as [d2 [err|os']] eqn:Hr; [done|].
    intros [= _ <-]. exact (force_creation_pass_never_skips_files root manifest d0 d2 os' Hr).
Qed.

Lemma write_policy_for_files_witness :
  apply_entry "/p" Skip sample_disk sample_file =
    (Disk (<["/p/src/features/home/HomeViewModel.ts" := File "export class HomeViewModel {}"]>
             (nodes sample_disk)) (denied sample_disk),
     inr (Outcome "/p/src/features/home/HomeViewModel.ts" Created None)) /\
  apply_entry "/p" Skip sample_disk sample_present =
    (sample_disk, inr (Outcome "/p/src/services/api.ts" Skipped None)) /\
  apply_entry "/p" Force sample_disk sample_present =
    (Disk (<["/p/src/services/api.ts" := File "export const api = {};"]> (nodes sample_disk))
          (denied sample_disk),
     inr (Outcome "/p/src/services/api.ts" Overwritten None)).
Proof.
  split; [|split].
  - apply (write_policy_for_files "/p" Skip sample_disk sample_file);
      [done | reflexivity | reflexivity | vm_compute; intros Hin; discriminate Hin].
  - apply (write_policy_for_files "/p" Skip sample_disk sample_present)
      with (c := "// mine"); [done | reflexivity | reflexivity | reflexivity].
  - apply (write_policy_for_files "/p" Force sample_disk sample_present)
      with (c := "// mine");
      [done | reflexivity | reflexivity | left; reflexivity | vm_compute; intros Hin; discriminate Hin].
Defined.

(** An entry with an invalid path stops the creation pass where it stands:
    the disk is as the entries before it left it. *)
Lemma creation_pass_stops_at_invalid_path root mode e after :
  has_traversal (relativePath e) = true \/ is_absolute (relativePath e) = true ->
  forall before d,
    apply_entries root mode d (before ++ e :: after) =
    match apply_entries root mode d before with
    | (d1, inr _) => (d1, inl InvalidPathError)
    | stopped => stopped
    end.
Proof.
  intros Hbad. induction before as [|b before IH]; intros d; simpl.
  - unfold apply_entry. rewrite (resolve_rejects d root (relativePath e) Hbad). reflexivity.
  - destruct (apply_entry root mode d b) as [d1 [err|o]]; [reflexivity|].
    rewrite IH. destruct (apply_entries root mode d1 before) as [d2 [err|os]]; reflexivity.
Qed.

(** C6: a manifest entry whose relative path has a [..] segment, or is
    absolute, is refused by the path resolver with [InvalidPathError], and
    processing it leaves the disk as it was. *)
Theorem invalid_path_is_rejected (root : string) (mode : WriteMode) (d : disk)
    (e : ManifestEntry) :
  In ".." (segments (relativePath e)) \/ is_absolute (relativePath e) = true ->
  resolve d root (relativePath e) = inl InvalidPathError /\
  apply_entry root mode d e = (d, inl InvalidPathError) /\
  (forall before after d0,
     apply_entries root mode d0 (before ++ e :: after) =
     match apply_entries root mode d0 before with
     | (d1, inr _) => (d1, inl InvalidPathError)
     | stopped => stopped
     end).
Proof.
  intros Hbad.
  assert (Hbad' : has_traversal (relativePath e) = true \/ is_absolute (relativePath e) = true).
  { destruct Hbad as [Hin | Ha]; [left | right; exact Ha].
    unfold has_traversal. apply existsb_exists. exists "..". split; [exact Hin | reflexivity]. }
  pose proof (resolve_rejects d root (relativePath e) Hbad') as Hr.
  split; [exact Hr|]. split.
  - unfold apply_entry. rewrite Hr. reflexivity.
  - intros before after d0. apply creation_pass_stops_at_invalid_path. exact Hbad'.
Qed.

Lemma invalid_path_is_rejected_witness :
  apply_entry "/p" Force sample_disk sample_escape = (sample_disk, inl InvalidPathError) /\
  resolve sample_disk "/p" "/etc/passwd" = inl InvalidPathError.
Proof.
  split.
  - apply (invalid_path_is_rejected "/p" Force sample_disk sample_escape).
    left. simpl. tauto.
  - apply (invalid_path_is_rejected "/p" Skip sample_disk
             (Entry "/etc/passwd" StaticFile NoBody)).
    right. reflexivity.
Defined.

End Engine.

(** * Properties of the config patcher *)

Section Patching.
Import Core.
Context {V : Type} `{EqDecision V}.
Implicit Types (doc : list (string * V)) (kv : string * V).

Lemma fst_put k v kv : fst (put k v kv) = fst kv.
Proof. unfold put. destruct (String.eqb (fst kv) k); reflexivity. Qed.

Lemma put_same k v kv : fst kv = k -> put k v kv = (k, v).
Proof. intros <-. unfold put. rewrite String.eqb_refl. reflexivity. Qed.

Lemma put_other k v kv : fst kv <> k -> put k v kv = kv.
Proof.
  intros Hne. unfold put. destruct (String.eqb_spec (fst kv) k); [done | reflexivity].
Qed.

Lemma fst_settle reqs : forall kv, fst (settle reqs kv) = fst kv.
Proof.
  unfold settle. induction reqs as [|r reqs IH]; intros kv; simpl; [reflexivity|].
  rewrite IH. apply fst_put.
Qed.

Lemma has_key_app k doc1 doc2 : has_key k (doc1 ++ doc2) = has_key k doc1 || has_key k doc2.
Proof. apply existsb_app. Qed.

Lemma has_key_put k k' v doc : has_key k (map (put k' v) doc) = has_key k doc.
Proof.
  unfold has_key. induction doc as [|kv doc IH]; simpl; [reflexivity|].
  rewrite fst_put, IH. reflexivity.
Qed.

Lemma has_key_false k doc kv : has_key k doc = false -> In kv doc -> fst kv <> k.
Proof.
  intros Hk Hin Heq. unfold has_key in Hk.
  assert (existsb (fun kv => String.eqb (fst kv) k) doc = true); [|congruence].
  apply existsb_exists. exists kv. split; [exact Hin|]. rewrite Heq. apply String.eqb_refl.
Qed.

Lemma rule_keeps_key forced k doc kv :
  has_key k doc = true -> has_key k (rule forced doc kv) = true.
Proof.
  intros Hk. unfold rule, ReplaceIfForced, AddIfMissing.
  destruct forced; destruct (has_key (fst kv) doc);
    rewrite ?has_key_put, ?has_key_app, ?Hk; reflexivity.
Qed.

Lemma rule_adds_key forced doc kv : has_key (fst kv) (rule forced doc kv) = true.
Proof.
  unfold rule, ReplaceIfForced, AddIfMissing.
  destruct forced; destruct (has_key (fst kv) doc) eqn:Hk;
    rewrite ?has_key_put, ?has_key_app, ?Hk; try reflexivity;
    simpl; rewrite String.eqb_refl; reflexivity.
Qed.

Lemma merge_keeps_key forced reqs : forall k doc,
  has_key k doc = true -> has_key k (merge forced reqs doc) = true.
Proof.
  unfold merge. induction reqs as [|r reqs IH]; intros k doc Hk; cbn [fold_left]; [exact Hk|].
  apply IH, rule_keeps_key, Hk.
Qed.

(** After a merge every required section is present. *)
Lemma merge_covers forced reqs : forall doc r,
  In r reqs -> has_key (fst r) (merge forced reqs doc) = true.
Proof.
  induction reqs as [|r0 reqs IH]; intros doc r Hin; [destruct Hin|].
  destruct Hin as [-> | Hin].
  - apply (merge_keeps_key forced reqs), rule_adds_key.
  - apply (IH (rule forced doc r0)), Hin.
Qed.

Lemma add_covered reqs : forall doc,
  (forall r, In r reqs -> has_key (fst r) doc = true) -> merge false reqs doc = doc.
Proof.
  unfold merge. induction reqs as [|r reqs IH]; intros doc Hc; cbn [fold_left]; [reflexivity|].
  assert (Hr : rule false doc r = doc).
  { unfold rule, AddIfMissing. rewrite (Hc r (or_introl eq_refl)). reflexivity. }
  rewrite Hr. apply IH. intros r' Hin. apply Hc. right. exact Hin.
Qed.

Lemma replace_covered reqs : forall doc,
  (forall r, In r reqs -> has_key (fst r) doc = true) ->
  merge true reqs doc = map (settle reqs) doc.
Proof.
  unfold merge, settle. induction reqs as [|r reqs IH]; intros doc Hc; cbn [fold_left].
  - symmetry. apply map_id.
  - assert (Hr : rule true doc r = map (put (fst r) (snd r)) doc).
    { unfold rule, ReplaceIfForced. rewrite (Hc r (or_introl eq_refl)). reflexivity. }
    rewrite Hr, IH, map_map; [reflexivity|].
    intros r' Hin. rewrite has_key_put. apply Hc. right. exact Hin.
Qed.

Lemma in_replace k v doc kv :
  In kv (ReplaceIfForced k v doc) -> kv = (k, v) \/ (In kv doc /\ fst kv <> k).
Proof.
  unfold ReplaceIfForced. destruct (has_key k doc) eqn:Hk; intros Hin.
  - apply in_map_iff in Hin as (kv0 & <- & Hin0).
    destruct (String.eqb_spec (fst kv0) k) as [Heq | Hne].
    + left. apply put_same, Heq.
    + right. rewrite (put_other k v kv0 Hne). split; assumption.
  - apply in_app_or in Hin as [Hin | [<- | []]]; [right | left; reflexivity].
    split; [exact Hin | exact (has_key_false k doc kv Hk Hin)].
Qed.

(** Every member of a forced merge already has its final value. *)
Lemma settle_fixes_merged reqs : forall doc kv,
  In kv (merge true reqs doc) -> settle reqs kv = kv.
Proof.
  unfold merge, settle.
  induction reqs as [|r reqs IH] using rev_ind; intros doc kv Hin; [reflexivity|].
  rewrite fold_left_app in Hin. rewrite fold_left_app. cbn [fold_left] in *.
  unfold rule in Hin.
  apply in_replace in Hin as [-> | [Hin Hne]].
  - apply put_same. exact (fst_settle reqs (fst r, snd r)).
  - rewrite (IH doc kv Hin). apply put_other, Hne.
Qed.

(** Merging a second time changes nothing. *)
Lemma merge_idempotent forced reqs doc :
  merge forced reqs (merge forced reqs doc) = merge forced reqs doc.
Proof.
  destruct forced.
  - rewrite replace_covered by (intros r Hin; apply merge_covers, Hin).
    rewrite <- (map_id (merge true reqs doc)) at 2.
    apply map_ext_in. intros kv Hin. exact (settle_fixes_merged reqs doc kv Hin).
  - apply add_covered. intros r Hin. apply merge_covers, Hin.
Qed.

Lemma parse_structured format doc : parse format (Structured format doc) = Some doc.
Proof. destruct format; reflexivity. Qed.

(** A patch either leaves the disk alone and reports no change, or writes
    a merged document in the requested format. *)
Lemma patch_cases (cd : config_disk V) filePath format reqs forced :
  (exists res, patch cd filePath format reqs forced = (cd, res) /\ changed res = false) \/
  (exists doc res,
     patch cd filePath format reqs forced =
     (ConfigDisk (<[filePath := Structured format (merge forced reqs doc)]> (files cd))
                 (locked cd), res)).
Proof.
  unfold patch, write_config.
  destruct (files cd !! filePath) as [c|].
  - destruct (parse format c) as [doc|]; [|left; eauto].
    destruct (decide (merge forced reqs doc = doc)); [left; eauto|].
    destruct (decide (filePath ∈ locked cd)); [left; eauto | right; eauto].
  - destruct (decide (filePath ∈ locked cd)); [left; eauto | right; eauto].
Qed.

Lemma patch_after_write (cd : config_disk V) filePath format reqs forced doc :
  patch (ConfigDisk (<[filePath := Structured format (merge forced reqs doc)]> (files cd))
                    (locked cd))
        filePath format reqs forced =
  (ConfigDisk (<[filePath := Structured format (merge forced reqs doc)]> (files cd))
              (locked cd),
   Patched false (Outcome filePath Skipped None)).
Proof.
  unfold patch. simpl. rewrite lookup_insert_eq, parse_structured, merge_idempotent.
  destruct (decide _); [reflexivity | done].
Qed.

(** C5: patching the output of a patch again with the same inputs reports
    [changed = false] and leaves every config file as the first patch left
    it. *)
Theorem patch_is_idempotent (cd : config_disk V) (filePath : string) (format : Format)
    (requiredSections : list (string * V)) (forced : bool) :
  changed (snd (patch (fst (patch cd filePath format requiredSections forced))
                      filePath format requiredSections forced)) = false /\
  fst (patch (fst (patch cd filePath format requiredSections forced))
             filePath format requiredSections forced) =
  fst (patch cd filePath format requiredSections forced).
Proof.
  destruct (patch_cases cd filePath format requiredSections forced)
    as [(res & Hp & Hres) | (doc & res & Hp)]; rewrite Hp; simpl.
  - rewrite Hp. split; [exact Hres | reflexivity].
  - rewrite patch_after_write. split; reflexivity.
Qed.

End Patching.

(** * Properties of the command line *)

Section Flags.
Import Js Cli.

Lemma flag_of_token_force tok :
  flag_of_token tok = Some FlagForce <-> tok = "-f" \/ tok = "--force".
Proof.
  unfold flag_of_token.
  destruct (String.eqb_spec tok "-f") as [->|H1]; [tauto|].
  destruct (String.eqb_spec tok "--force") as [->|H2]; [tauto|].
  destruct (String.eqb_spec tok "-o") as [->|H3]; [split; [discriminate | intros [|]; discriminate]|].
  destruct (String.eqb_spec tok "--overwrite") as [->|H4];
    [split; [discriminate | intros [|]; discriminate]|].
  destruct (String.eqb_spec tok "--skip-deps") as [->|H5];
    [split; [discriminate | intros [|]; discriminate]|].
  split; [discriminate | tauto].
Qed.

Lemma flag_of_token_overwrite tok :
  flag_of_token tok = Some FlagOverwrite <-> tok = "-o" \/ tok = "--overwrite".
Proof.
  unfold flag_of_token.
  destruct (String.eqb_spec tok "-f") as [->|H1]; [split; [discriminate | intros [|]; discriminate]|].
  destruct (String.eqb_spec tok "--force") as [->|H2];
    [split; [discriminate | intros [|]; discriminate]|].
  destruct (String.eqb_spec tok "-o") as [->|H3]; [tauto|].
  destruct (String.eqb_spec tok "--overwrite") as [->|H4]; [tauto|].
  destruct (String.eqb_spec tok "--skip-deps") as [->|H5];
    [split; [discriminate | intros [|]; discriminate]|].
  split; [discriminate | tauto].
Qed.

Lemma flag_of_token_skip tok :
  flag_of_token tok = Some FlagSkipDeps <-> tok = "--skip-deps".
Proof.
  unfold flag_of_token.
  destruct (String.eqb_spec tok "-f") as [->|H1]; [split; discriminate|].
  destruct (String.eqb_spec tok "--force") as [->|H2]; [split; discriminate|].
  destruct (String.eqb_spec tok "-o") as [->|H3]; [split; discriminate|].
  destruct (String.eqb_spec tok "--overwrite") as [->|H4]; [split; discriminate|].
  destruct (String.eqb_spec tok "--skip-deps") as [->|H5]; [tauto|].
  split; [discriminate | intros Heq; destruct (H5 Heq)].
Qed.

Lemma set_flag_force f o :
  or_false (force (set_flag f o)) = true <-> or_false (force o) = true \/ f = FlagForce.
Proof. destruct f; simpl; split; intros; try tauto; intuition discriminate. Qed.

Lemma set_flag_overwrite f o :
  or_false (overwrite (set_flag f o)) = true <->
  or_false (overwrite o) = true \/ f = FlagOverwrite.
Proof. destruct f; simpl; split; intros; try tauto; intuition discriminate. Qed.

Lemma set_flag_skip f o :
  or_false (skipDeps (set_flag f o)) = true <->
  or_false (skipDeps o) = true \/ f = FlagSkipDeps.
Proof. destruct f; simpl; split; intros; try tauto; intuition discriminate. Qed.

(** A plain argument is read whole: a declared spelling sets its flag, and
    anything else is an operand. *)
Lemma read_arg_plain tok :
  plain tok = true ->
  read_arg tok = match flag_of_token tok with
                 | Some f => ([Declared f], Consumed)
                 | None => ([], Operand tok)
                 end.
Proof.
  unfold plain. destruct (flag_of_token tok) as [f|] eqn:Hf.
  - intros _. revert Hf. unfold flag_of_token.
    destruct (String.eqb_spec tok "-f") as [->|_]; [intros [= <-]; reflexivity|].
    destruct (String.eqb_spec tok "--force") as [->|_]; [intros [= <-]; reflexivity|].
    destruct (String.eqb_spec tok "-o") as [->|_]; [intros [= <-]; reflexivity|].
    destruct (String.eqb_spec tok "--overwrite") as [->|_]; [intros [= <-]; reflexivity|].
    destruct (String.eqb_spec tok "--skip-deps") as [->|_]; [intros [= <-]; reflexivity|].
    discriminate.
  - destruct tok as [|c rest]; [reflexivity|]. cbv beta iota. intros Hc.
    apply negb_true_iff in Hc. unfold read_arg. rewrite Hc. reflexivity.
Qed.

(** The loop over plain arguments: commander rejects nothing, and a member
    is [true] exactly when it was before or one of its spellings occurs;
    no member is ever set to [false]. *)
Lemma parse_loop_plain args : forall o,
  (forall tok, In tok args -> plain tok = true) ->
  exists o',
    parse_loop o [] args = Some (o', []) /\
    (or_false (force o') = true <->
     or_false (force o) = true \/ In "-f" args \/ In "--force" args) /\
    (or_false (overwrite o') = true <->
     or_false (overwrite o) = true \/ In "-o" args \/ In "--overwrite" args) /\
    (or_false (skipDeps o') = true <->
     or_false (skipDeps o) = true \/ In "--skip-deps" args) /\
    (force o' = Some true \/ force o' = force o) /\
    (overwrite o' = Some true \/ overwrite o' = overwrite o) /\
    (skipDeps o' = Some true \/ skipDeps o' = skipDeps o).
Proof.
  induction args as [|tok rest IH]; intros o Hall.
  - exists o. simpl. tauto.
  - assert (Hrest : forall t, In t rest -> plain t = true)
      by (intros t Ht; apply Hall; right; exact Ht).
    cbn [parse_loop]. rewrite (read_arg_plain tok (Hall tok (or_introl eq_refl))).
    pose proof (flag_of_token_force tok) as Ff.
    pose proof (flag_of_token_overwrite tok) as Fo.
    pose proof (flag_of_token_skip tok) as Fs.
    destruct (flag_of_token tok) as [f|]; cbn [emit_all].
    + destruct (IH (set_flag f o) Hrest) as (o' & Hp & Hf & Ho & Hs & Mf & Mo & Ms).
      exists o'. split; [exact Hp|].
      assert (Ef : f = FlagForce <-> tok = "-f" \/ tok = "--force")
        by (rewrite <- Ff; split; congruence).
      assert (Eo : f = FlagOverwrite <-> tok = "-o" \/ tok = "--overwrite")
        by (rewrite <- Fo; split; congruence).
      assert (Es : f = FlagSkipDeps <-> tok = "--skip-deps")
        by (rewrite <- Fs; split; congruence).
      rewrite Hf, Ho, Hs, set_flag_force, set_flag_overwrite, set_flag_skip, Ef, Eo, Es.
      cbn [In].
      split; [intuition congruence|]. split; [intuition congruence|].
      split; [intuition congruence|].
      destruct f; simpl in *; tauto.
    + destruct (IH o Hrest) as (o' & Hp & Hf & Ho & Hs & Mf & Mo & Ms).
      exists o'. split; [exact Hp|].
      assert (Nf : ~ (tok = "-f" \/ tok = "--force"))
        by (intros Hx; apply Ff in Hx; discriminate Hx).
      assert (No : ~ (tok = "-o" \/ tok = "--overwrite"))
        by (intros Hx; apply Fo in Hx; discriminate Hx).
      assert (Ns : tok <> "--skip-deps")
        by (intros Hx; apply Fs in Hx; discriminate Hx).
      rewrite Hf, Ho, Hs. cbn [In].
      split; [intuition congruence|]. split; [intuition congruence|].
      split; [intuition congruence|]. tauto.
Qed.

Lemma parse_plain args :
  (forall tok, In tok args -> plain tok = true) ->
  exists o,
    parse args = Runs o /\
    (or_false (force o) = true <-> In "-f" args \/ In "--force" args) /\
    (or_false (overwrite o) = true <-> In "-o" args \/ In "--overwrite" args) /\
    (or_false (skipDeps o) = true <-> In "--skip-deps" args) /\
    (force o = Some true \/ force o = None) /\
    (overwrite o = Some true \/ overwrite o = None) /\
    (skipDeps o = Some true \/ skipDeps o = None).
Proof.
  intros Hall.
  destruct (parse_loop_plain args no_options Hall) as (o & Hp & Hf & Ho & Hs & Mf & Mo & Ms).
  exists o. unfold parse. rewrite Hp. simpl in *.
  split; [reflexivity|].
  rewrite Hf, Ho, Hs. repeat split; try tauto; intuition discriminate.
Qed.

Lemma member_of_flag (m : option bool) :
  (m = Some true \/ m = None) -> m = if or_false m then Some true else None.
Proof. intros [-> | ->]; reflexivity. Qed.

Lemma member_set (m : option bool) :
  (m = Some true \/ m = None) -> (or_false m = true <-> m = Some true).
Proof. intros [-> | ->]; simpl; split; intros Hx; try reflexivity; discriminate Hx. Qed.

(** Commander reads more than plain arguments: a group of short flags, the
    terminator [--], the version and help flags, and options it does not
    know. *)
Example commander_reads_the_command_line :
  parse ["-fo"] = Runs (Options (Some true) (Some true) None) /\
  parse ["App"; "-f"] = Runs (Options (Some true) None None) /\
  parse ["--"; "-f"] = Runs no_options /\
  parse ["-f"; "--"; "-o"] = Runs (Options (Some true) None None) /\
  parse ["-f"; "-V"] = PrintsVersion /\
  parse ["-x"; "--help"] = PrintsHelp /\
  parse ["-f"; "--nope"; "-o"] = Rejects "--nope" /\
  parse ["--force=1"] = Rejects "--force=1".
Proof. repeat split; reflexivity. Qed.

(** X8: on a command line of declared flags and operands (no group of short
    flags, no [--], no other option), the options depend only on which flags
    occur: the order of the arguments and their repetition change nothing,
    [skipDeps] is set exactly by [--skip-deps], and every member is [true]
    or [undefined]. *)
Theorem flags_order_and_repetition_irrelevant (args args' : list string) :
  (forall tok, In tok args -> plain tok = true) ->
  (forall tok, In tok args <-> In tok args') ->
  exists o,
    parse args = Runs o /\
    parse args' = Runs o /\
    (or_false (skipDeps o) = true <-> In "--skip-deps" args) /\
    (force o = Some true \/ force o = None) /\
    (overwrite o = Some true \/ overwrite o = None) /\
    (skipDeps o = Some true \/ skipDeps o = None).
Proof.
  intros Hall Hsame.
  assert (Hall' : forall tok, In tok args' -> plain tok = true)
    by (intros tok Hin; apply Hall, Hsame; exact Hin).
  destruct (parse_plain args Hall) as (o & Hp & Hf & Ho & Hs & Mf & Mo & Ms).
  destruct (parse_plain args' Hall') as (o' & Hp' & Hf' & Ho' & Hs' & Mf' & Mo' & Ms').
  exists o. split; [exact Hp|]. split; [|tauto].
  rewrite Hp'. f_equal.
  assert (Ef : or_false (force o') = or_false (force o))
    by (apply eq_true_iff_eq; rewrite Hf', Hf, !Hsame; tauto).
  assert (Eo : or_false (overwrite o') = or_false (overwrite o))
    by (apply eq_true_iff_eq; rewrite Ho', Ho, !Hsame; tauto).
  assert (Es : or_false (skipDeps o') = or_false (skipDeps o))
    by (apply eq_true_iff_eq; rewrite Hs', Hs, !Hsame; tauto).
  destruct o as [f v k], o' as [f' v' k']. simpl in *.
  rewrite (member_of_flag f Mf), (member_of_flag v Mo), (member_of_flag k Ms).
  rewrite (member_of_flag f' Mf'), (member_of_flag v' Mo'), (member_of_flag k' Ms').
  rewrite Ef, Eo, Es. reflexivity.
Qed.

Lemma flags_order_and_repetition_irrelevant_witness :
  parse ["--overwrite"; "App"; "-f"; "--skip-deps"; "-f"] =
  Runs (Options (Some true) (Some true) (Some true)).
Proof.
  destruct (flags_order_and_repetition_irrelevant
              ["-f"; "--skip-deps"; "--overwrite"; "App"]
              ["--overwrite"; "App"; "-f"; "--skip-deps"; "-f"])
    as (o & Hp & Hp' & _).
  - intros tok [<- | [<- | [<- | [<- | []]]]]; reflexivity.
  - intros tok. simpl. tauto.
  - rewrite Hp'. rewrite <- Hp. reflexivity.
Defined.

End Flags.

(** * The boundary between the entry point and the engine *)

Section Boundary.
Import Js Cli Script.



(** C3 (as the source has it): the action hands the core the two booleans
    independently, each true exactly when its own flag was given; every
    combination reaches the core, both true included, when [-f] and [-o] are
    given together.  In the creation pass [Overwrite] treats a file as
    [Force] does. *)
Theorem boundary_passes_both_flags :
  (forall w args o dir g,
     parse args = Runs o ->
     In (Ran (NewStructureGenerator dir g)) (script w args) ->
     dir = cwd w /\
     (gen_force g = true <-> force o = Some true) /\
     (gen_overwrite g = true <-> overwrite o = Some true)) /\
  (forall args,
     (forall tok, In tok args -> plain tok = true) ->
     exists o,
       parse args = Runs o /\
       (force o = Some true <-> In "-f" args \/ In "--force" args) /\
       (overwrite o = Some true <-> In "-o" args \/ In "--overwrite" args)) /\
  (forall w,
     validateProjectDirectory w (cwd w) = ([], Ok tt) ->
     In (Ran (NewStructureGenerator (cwd w) (GeneratorOptions true true)))
        (script w ["-f"; "-o"]) /\
     In (Ran (NewStructureGenerator (cwd w) (GeneratorOptions true false)))
        (script w ["-f"]) /\
     In (Ran (NewStructureGenerator (cwd w) (GeneratorOptions false true)))
        (script w ["-o"]) /\
     In (Ran (NewStructureGenerator (cwd w) (GeneratorOptions false false)))
        (script w ["--skip-deps"])) /\
  (forall d r e, Core.apply_file Core.Overwrite d r e = Core.apply_file Core.Force d r e).
Proof.
  split; [|split; [|split]].
  - intros w args o dir g Hp Hin.
    destruct (script_constructs w args o dir g Hp Hin) as [-> ->].
    split; [reflexivity|]. simpl.
    destruct (force o) as [[|]|], (overwrite o) as [[|]|]; simpl;
      repeat split; intros Hx; try reflexivity; discriminate Hx.
  - intros args Hall.
    destruct (parse_plain args Hall) as (o & Hp & Hf & Ho & _ & Mf & Mo & _).
    exists o. split; [exact Hp|].
    rewrite <- (member_set (force o) Mf), <- (member_set (overwrite o) Mo).
    split; [exact Hf | exact Ho].
  - intros w Hv.
    assert (Hrun : forall args o, args <> [] -> parse args = Runs o ->
              In (Ran (NewStructureGenerator (cwd w) (generator_options_of o)))
                 (script w args))
      by (intros args o Hne Hp; apply script_constructs_when_accepted; assumption).
    split; [|split; [|split]].
    + apply (Hrun ["-f"; "-o"] (Options (Some true) (Some true) None));
        [intros Hnil; discriminate Hnil | reflexivity].
    + apply (Hrun ["-f"] (Options (Some true) None None));
        [intros Hnil; discriminate Hnil | reflexivity].
    + apply (Hrun ["-o"] (Options None (Some true) None));
        [intros Hnil; discriminate Hnil | reflexivity].
    + apply (Hrun ["--skip-deps"] (Options None None (Some true)));
        [intros Hnil; discriminate Hnil | reflexivity].
  - intros d r e. reflexivity.
Qed.

(** C3, as stated, fails: with [-f -o] the generator is constructed with
    [force] and [overwrite] both true. *)
Lemma both_flags_reach_the_core :
  ~ (forall w args dir g,
       In (Ran (NewStructureGenerator dir g)) (script w args) ->
       ~ (gen_force g = true /\ gen_overwrite g = true)).
Proof.
  intros Hnever.
  apply (Hnever test_project ["-f"; "-o"]
                "/work/test-expo-project" (GeneratorOptions true true)).
  - vm_compute. tauto.
  - split; reflexivity.
Qed.

End Boundary.

(** * Further properties of the entry point *)

Section Validation.
Import Js Cli.

(** X1: the validation accepts a directory exactly when both files are
    there and [package.json] parses to an object whose [dependencies] member
    is an object with a truthy [expo] member. *)
Theorem validation_accepts_iff (w : world) :
  validateProjectDirectory w (cwd w) = ([], Ok tt) <->
  pathExists w (package_json w) = true /\
  pathExists w (app_json w) = true /\
  exists members deps,
    readJson w (package_json w) = Ok (JObj members) /\
    obj_get "dependencies" members = Some (JObj deps) /\
    truthy (obj_get "expo" deps) = true.
Proof.
  rewrite validate_unfold.
  destruct (pathExists w (package_json w)); simpl;
    [|split; [discriminate | intros (Hp & _); discriminate Hp]].
  destruct (pathExists w (app_json w)); simpl;
    [|split; [discriminate | intros (_ & Ha & _); discriminate Ha]].
  destruct (readJson w (package_json w)) as [pkg|e|]; simpl.
  - rewrite lacks_expo_spec. split.
    + destruct pkg as [|b|m x|s|xs|ms]; try discriminate.
      destruct (obj_get "dependencies" ms) as [[|b|m x|s|xs|deps]|] eqn:Hd; try discriminate.
      destruct (truthy (obj_get "expo" deps)) eqn:Ht; [|discriminate].
      intros _. split; [reflexivity|]. split; [reflexivity|].
      exists ms, deps. split; [reflexivity|]. split; [exact Hd | exact Ht].
    + intros (_ & _ & ms & deps & Hr & Hd & Ht). injection Hr as ->.
      rewrite Hd, Ht. reflexivity.
  - split; [discriminate | intros (_ & _ & ms & deps & Hr & _); discriminate Hr].
  - split; [discriminate | intros (_ & _ & ms & deps & Hr & _); discriminate Hr].
Qed.

(** X2: listing expo under [dependencies] is not enough: with a falsy value
    ([""], [null], [false], [0]) the project is refused with the
    not-an-Expo-project error. *)
Theorem falsy_expo_entry_is_refused (w : world) (members deps : list (string * json))
    (v : json) :
  pathExists w (package_json w) = true ->
  pathExists w (app_json w) = true ->
  readJson w (package_json w) = Ok (JObj members) ->
  obj_get "dependencies" members = Some (JObj deps) ->
  obj_get "expo" deps = Some v ->
  truthy (Some v) = false ->
  declares "dependencies" "expo" (JObj members) = true /\
  validateProjectDirectory w (cwd w) = ([], Throw (Error not_expo_message)).
Proof.
  intros Hp Ha Hr Hd He Ht. split.
  - unfold declares. rewrite Hd, He. reflexivity.
  - rewrite validate_unfold, Hp, Ha, Hr. simpl.
    rewrite lacks_expo_spec, Hd, He, Ht. reflexivity.
Qed.

Lemma falsy_expo_entry_is_refused_witness :
  validateProjectDirectory
    (project (Some (JsonFile (JObj [("dependencies", JObj [("expo", JStr "")])])))
             (Some (JsonFile test_app_json)))
    "/work/test-expo-project" = ([], Throw (Error not_expo_message)).
Proof.
  apply (falsy_expo_entry_is_refused
           (project (Some (JsonFile (JObj [("dependencies", JObj [("expo", JStr "")])])))
                    (Some (JsonFile test_app_json)))
           [("dependencies", JObj [("expo", JStr "")])] [("expo", JStr "")] (JStr ""));
    vm_compute; reflexivity.
Defined.

Lemma check_required_found w dir files :
  (forall f, In f files -> pathExists w (path_join dir f) = true) ->
  check_required w dir files = ([], Ok tt).
Proof.
  induction files as [|f files IH]; intros Hall; simpl; [reflexivity|].
  rewrite (Hall f (or_introl eq_refl)). simpl. apply IH.
  intros g Hg. apply Hall. right. exact Hg.
Qed.

(** X3: the existence loop succeeds exactly when every required file is
    there, and otherwise names the first one that is missing, whatever comes
    after it; so [package.json] is reported before [app.json], and the
    manifest is not read before both are found. *)
Theorem first_missing_file_is_reported (w : world) (dir : string) :
  (forall files,
     check_required w dir files = ([], Ok tt) <->
     forall f, In f files -> pathExists w (path_join dir f) = true) /\
  (forall found file rest,
     (forall f, In f found -> pathExists w (path_join dir f) = true) ->
     pathExists w (path_join dir file) = false ->
     check_required w dir (found ++ file :: rest) =
     ([], Throw (Error ("Not a valid Expo project directory. Missing: " ++ file)))) /\
  (pathExists w (package_json w) = true ->
   pathExists w (app_json w) = false ->
   validateProjectDirectory w (cwd w) =
   ([], Throw (Error "Not a valid Expo project directory. Missing: app.json"))).
Proof.
  split; [|split].
  - intros files. split; [|apply check_required_found].
    induction files as [|f files IH]; simpl; [intros _ g []|].
    destruct (pathExists w (path_join dir f)) eqn:Hf; simpl; [|discriminate].
    intros Hc g [<- | Hg]; [exact Hf | exact (IH Hc g Hg)].
  - intros found file rest. induction found as [|f found IH]; intros Hall Hmiss; simpl.
    + rewrite Hmiss. reflexivity.
    + rewrite (Hall f (or_introl eq_refl)). simpl. apply IH; [|exact Hmiss].
      intros g Hg. apply Hall. right. exact Hg.
  - intros Hp Ha. rewrite validate_unfold, Hp, Ha. reflexivity.
Qed.

(** X4: a [package.json] that parses to something other than an object is
    refused: [null] with the TypeError of reading [dependencies] on it, an
    array, a string, a number or a boolean with the not-an-Expo-project
    error. *)
Theorem manifest_that_is_not_an_object (w : world) (pkg : json) :
  pathExists w (package_json w) = true ->
  pathExists w (app_json w) = true ->
  readJson w (package_json w) = Ok pkg ->
  (forall members, pkg <> JObj members) ->
  validateProjectDirectory w (cwd w) =
  ([], Throw (Error match pkg with
                    | JNull => "Cannot read properties of null (reading 'dependencies')"
                    | _ => not_expo_message
                    end)).
Proof.
  intros Hp Ha Hr Hno. rewrite validate_unfold, Hp, Ha, Hr. simpl.
  rewrite lacks_expo_spec.
  destruct pkg as [|b|m x|s|xs|ms]; try reflexivity.
  destruct (Hno ms eq_refl).
Qed.

Lemma manifest_that_is_not_an_object_witness :
  validateProjectDirectory (project (Some (JsonFile JNull)) (Some (JsonFile test_app_json)))
                           "/work/test-expo-project" =
    ([], Throw (Error "Cannot read properties of null (reading 'dependencies')")) /\
  validateProjectDirectory (project (Some (JsonFile (JArr []))) (Some (JsonFile test_app_json)))
                           "/work/test-expo-project" =
    ([], Throw (Error not_expo_message)).
Proof.
  split.
  - apply (manifest_that_is_not_an_object
             (project (Some (JsonFile JNull)) (Some (JsonFile test_app_json))) JNull);
      [reflexivity | reflexivity | reflexivity | intros members Hm; discriminate Hm].
  - apply (manifest_that_is_not_an_object
             (project (Some (JsonFile (JArr []))) (Some (JsonFile test_app_json))) (JArr []));
      [reflexivity | reflexivity | reflexivity | intros members Hm; discriminate Hm].
Defined.

End Validation.

Section Action.
Import Js Cli.

(** X5: the action completes normally exactly when the validation passes
    and [generate()] resolves; the success message is printed in that case
    and in no other. *)
Theorem action_succeeds_iff (w : world) (o : options) :
  (snd (action w o) = Ok tt <->
   validateProjectDirectory w (cwd w) = ([], Ok tt) /\
   core w (cwd w) (generator_options_of o) = Ok tt) /\
  (In (ConsoleLog MsgSuccess) (trace (action w o)) <-> snd (action w o) = Ok tt) /\
  (snd (action w o) = Ok tt -> exit_status (trace (action w o)) = 0%Z).
Proof.
  assert (Hnot : forall l : list event,
            (forall x, In x l -> x <> ConsoleLog MsgSuccess) ->
            ~ In (ConsoleLog MsgSuccess) l).
  { intros l Hl Hin. exact (Hl _ Hin eq_refl). }
  destruct (action_shapes w o)
    as [(e & Hv & ->) | (Hv & [(Hc & ->) | [(e & Hc & ->) | (Hc & ->)]])];
    unfold trace; cbn [fst snd].
  - rewrite Hv. split; [split; [discriminate | intros [Hx _]; discriminate Hx]|].
    split; [|discriminate]. split; [|discriminate].
    intros Hin. exfalso. revert Hin. apply Hnot. intros x Hin.
    repeat (destruct Hin as [<- | Hin]; [discriminate|]). destruct Hin.
  - rewrite Hc. split; [tauto|]. split.
    + split; [reflexivity|]. intros _. apply in_or_app. right. apply success_lines_announce.
    + intros _. unfold success_lines. destruct (or_false (skipDeps o)); reflexivity.
  - rewrite Hc. split; [split; [discriminate | intros [_ Hx]; discriminate Hx]|].
    split; [|discriminate]. split; [|discriminate].
    intros Hin. exfalso. revert Hin. apply Hnot. intros x Hin.
    apply in_app_or in Hin as [Hin | Hin];
      repeat (destruct Hin as [<- | Hin]; [discriminate|]); destruct Hin.
  - rewrite Hc. split; [split; [discriminate | intros [_ Hx]; discriminate Hx]|].
    split; [|discriminate]. split; [|discriminate].
    intros Hin. exfalso. revert Hin. apply Hnot. intros x Hin.
    repeat (destruct Hin as [<- | Hin]; [discriminate|]). destruct Hin.
Qed.

Lemma exit_is_last (l : list event) (pre post : list event) (c : Z) :
  (forall e, In e l -> forall c', e <> ProcessExit c') ->
  (l ++ [ProcessExit 1])%list = (pre ++ ProcessExit c :: post)%list ->
  post = [] /\ c = 1%Z.
Proof.
  revert pre. induction l as [|x l IH]; intros pre Hno Heq.
  - destruct pre as [|y pre]; simpl in Heq.
    + injection Heq as <- <-. split; reflexivity.
    + injection Heq as _ Heq. destruct pre; discriminate Heq.
  - destruct pre as [|y pre]; simpl in Heq.
    + injection Heq as Hx _. destruct (Hno x (or_introl eq_refl) c). exact Hx.
    + injection Heq as _ Heq. apply (IH pre); [|exact Heq].
      intros e He. apply Hno. right. exact He.
Qed.

Lemma no_exit_inside (l pre post : list event) (c : Z) :
  (forall e, In e l -> forall c', e <> ProcessExit c') ->
  l <> (pre ++ ProcessExit c :: post)%list.
Proof.
  intros Hno Heq. apply (Hno (ProcessExit c)) with (c' := c); [|reflexivity].
  rewrite Heq. apply in_or_app. right. left. reflexivity.
Qed.

Lemma started_has_no_exit w o e : In e (started w o) -> forall c, e <> ProcessExit c.
Proof.
  intros Hin c. repeat (destruct Hin as [<- | Hin]; [discriminate|]). destruct Hin.
Qed.

Lemma exit_status_skips (l rest : list event) :
  (forall e, In e l -> forall c, e <> ProcessExit c) ->
  exit_status (l ++ rest) = exit_status rest.
Proof.
  induction l as [|x l IH]; intros Hno; simpl; [reflexivity|].
  destruct x; try (apply IH; intros e He; apply Hno; right; exact He).
  destruct (Hno (ProcessExit code) (or_introl eq_refl) code). reflexivity.
Qed.

(** X6: when [generate()] does not end the process itself, the exit status
    of a run is 0 or 1; it is 1 exactly when the validation or [generate()]
    throws; and [process.exit] is called at most once, with code 1, as the
    last thing the action does. *)
Theorem action_exit_status (w : world) (o : options) :
  core w (cwd w) (generator_options_of o) <> Halt ->
  (exit_status (trace (action w o)) = 0%Z \/ exit_status (trace (action w o)) = 1%Z) /\
  (exit_status (trace (action w o)) = 1%Z <->
   (exists e, validateProjectDirectory w (cwd w) = ([], Throw e)) \/
   (exists e, core w (cwd w) (generator_options_of o) = Throw e /\
              validateProjectDirectory w (cwd w) = ([], Ok tt))) /\
  (forall pre post c,
     trace (action w o) = (pre ++ ProcessExit c :: post)%list -> post = [] /\ c = 1%Z).
Proof.
  intros Hruns.
  assert (Hsucc : forall e, In e (started w o ++ success_lines o) ->
                            forall c, e <> ProcessExit c).
  { intros e Hin c. apply in_app_or in Hin as [Hin | Hin].
    - apply (started_has_no_exit w o e Hin).
    - destruct (success_lines_are_logs o e Hin) as [l ->]. discriminate. }
  destruct (action_shapes w o)
    as [(e & Hv & ->) | (Hv & [(Hc & ->) | [(e & Hc & ->) | (Hc & ->)]])];
    unfold trace; cbn [fst].
  - split; [right; reflexivity|]. split.
    + split; [intros _; left; eauto | reflexivity].
    + intros pre post c Heq.
      apply (exit_is_last [ConsoleLog MsgCreating; ConsoleError (MsgError (message e));
                           ConsoleLog MsgTip] pre post c); [|exact Heq].
      intros x Hin c'. repeat (destruct Hin as [<- | Hin]; [discriminate|]). destruct Hin.
  - rewrite <- (app_nil_r (started w o ++ success_lines o)).
    rewrite (exit_status_skips _ [] Hsucc). rewrite app_nil_r.
    split; [left; reflexivity|]. split.
    + split; [discriminate|]. rewrite Hv, Hc.
      intros [[e He] | (e & He & _)]; discriminate He.
    + intros pre post c Heq. destruct (no_exit_inside _ pre post c Hsucc Heq).
  - rewrite (exit_status_skips _ _ (started_has_no_exit w o)).
    split; [right; reflexivity|]. split.
    + split; [intros _; right; eauto | reflexivity].
    + intros pre post c Heq.
      apply (exit_is_last (started w o ++ [ConsoleError (MsgError (message e));
                                           ConsoleLog MsgTip]) pre post c).
      * intros x Hin c'. apply in_app_or in Hin as [Hin | Hin].
        -- apply (started_has_no_exit w o x Hin).
        -- repeat (destruct Hin as [<- | Hin]; [discriminate|]). destruct Hin.
      * rewrite <- Heq, <- app_assoc. reflexivity.
  - destruct (Hruns Hc).
Qed.

Lemma action_exit_status_witness :
  exit_status (trace (action test_project (Options None None (Some true)))) = 0%Z /\
  exit_status (trace (action (project None None) no_options)) = 1%Z.
Proof.
  split.
  - destruct (action_exit_status test_project (Options None None (Some true)))
      as ([H0 | H1] & _ & _).
    + vm_compute. intros Hx. discriminate Hx.
    + exact H0.
    + vm_compute in H1. discriminate H1.
  - apply (action_exit_status (project None None) no_options).
    + vm_compute. intros Hx. discriminate Hx.
    + left. eexists. vm_compute. reflexivity.
Defined.

(** X7: the generator is constructed exactly when the validation passes,
    and then once, with the working directory, and [generate()] is called
    once, right after; no run constructs a second generator. *)
Theorem core_runs_once_after_validation (w : world) (o : options) :
  (core_invoked (trace (action w o)) = true <->
   validateProjectDirectory w (cwd w) = ([], Ok tt)) /\
  (validateProjectDirectory w (cwd w) = ([], Ok tt) ->
   List.filter is_core_event (trace (action w o)) =
   [NewStructureGenerator (cwd w) (generator_options_of o); Generate]).
Proof.
  assert (Hlogs : List.filter is_core_event (success_lines o) = []).
  { unfold success_lines. destruct (or_false (skipDeps o)); reflexivity. }
  destruct (action_shapes w o)
    as [(e & Hv & ->) | (Hv & [(Hc & ->) | [(e & Hc & ->) | (Hc & ->)]])];
    unfold trace, core_invoked; cbn [fst].
  - rewrite Hv. split; [split; discriminate | discriminate].
  - split; [split; [intros _; exact Hv | reflexivity]|].
    intros _. rewrite List.filter_app, Hlogs. reflexivity.
  - split; [split; [intros _; exact Hv | reflexivity] | reflexivity].
  - split; [split; [intros _; exact Hv | reflexivity] | reflexivity].
Qed.

End Action.

(** * The local test script *)

Section Tests.
Import Js Cli Harness.

Lemma good_file_content d p : good_file d p = true <-> has_content d p.
Proof.
  unfold good_file, has_content. destruct (d !! p) as [[|raw|v]|]; split.
  - discriminate.
  - intros (n & [= <-] & Hn & _). destruct (Hn eq_refl).
  - intros Hraw. exists (Unparseable raw). split; [reflexivity|]. split; [discriminate|].
    intros [= ->]. discriminate Hraw.
  - intros (n & [= <-] & _ & Hn). destruct (String.eqb_spec raw "") as [->|Hne];
      [destruct (Hn eq_refl) | reflexivity].
  - intros _. exists (JsonFile v). split; [reflexivity|]. split; discriminate.
  - reflexivity.
  - discriminate.
  - intros (n & Hn & _). discriminate Hn.
Qed.

(** One turn of the loop of [verifyStructure], by what is at the path. *)
Lemma verify_loop_cons pp f rest all d :
  verify_loop pp (f :: rest) all d =
  match d !! path_join pp f with
  | None =>
      let '(tr, d', c) := verify_loop pp rest false d in (Print (Missing f) :: tr, d', c)
  | Some Folder =>
      ([Print (Found f)], d, Throw (Error "EISDIR: illegal operation on a directory, read"))
  | Some (Unparseable raw) =>
      if String.eqb raw ""
      then let '(tr, d', c) := verify_loop pp rest false d in
           (Print (Found f) :: Print (EmptyFile f) :: tr, d', c)
      else let '(tr, d', c) := verify_loop pp rest all d in (Print (Found f) :: tr, d', c)
  | Some (JsonFile _) =>
      let '(tr, d', c) := verify_loop pp rest all d in (Print (Found f) :: tr, d', c)
  end.
Proof.
  cbn [verify_loop]. unfold tbind, tpathExists, readFile_is_empty, print, tstep.
  destruct (d !! path_join pp f) as [[|raw|v]|] eqn:Hd; cbn; rewrite ?Hd; cbn.
  - reflexivity.
  - destruct (String.eqb raw "");
      destruct (verify_loop pp rest _ d) as [[tr d'] c]; reflexivity.
  - destruct (verify_loop pp rest all d) as [[tr d'] c]; reflexivity.
  - destruct (verify_loop pp rest false d) as [[tr d'] c]; reflexivity.
Qed.

Lemma verify_loop_reads_only pp files : forall all d,
  snd (fst (verify_loop pp files all d)) = d.
Proof.
  induction files as [|f files IH]; intros all d; [reflexivity|].
  rewrite verify_loop_cons.
  destruct (d !! path_join pp f) as [[|raw|v]|]; [reflexivity | | |].
  - destruct (String.eqb raw "").
    + specialize (IH false d). destruct (verify_loop pp files false d) as [[tr d'] c]. exact IH.
    + specialize (IH all d). destruct (verify_loop pp files all d) as [[tr d'] c]. exact IH.
  - specialize (IH all d). destruct (verify_loop pp files all d) as [[tr d'] c]. exact IH.
  - specialize (IH false d). destruct (verify_loop pp files false d) as [[tr d'] c]. exact IH.
Qed.

(** The flag the loop ends with. *)
Lemma verify_loop_flag pp files : forall all d,
  snd (verify_loop pp files all d) = Ok true <->
  all = true /\ forall f, In f files -> good_file d (path_join pp f) = true.
Proof.
  induction files as [|f files IH]; intros all d.
  - simpl. unfold tret. simpl. split.
    + intros [= ->]. split; [reflexivity | intros f []].
    + intros [-> _]. reflexivity.
  - rewrite verify_loop_cons. unfold good_file at 1.
    destruct (d !! path_join pp f) as [[|raw|v]|] eqn:Hd.
    + simpl. split; [discriminate|]. intros [_ Hall].
      specialize (Hall f (or_introl eq_refl)). unfold good_file in Hall.
      rewrite Hd in Hall. discriminate Hall.
    + destruct (String.eqb raw "") eqn:Hraw.
      * specialize (IH false d). destruct (verify_loop pp files false d) as [[tr d'] c].
        simpl in *. rewrite IH. split; [intros [Hf _]; discriminate Hf|].
        intros [_ Hall]. specialize (Hall f (or_introl eq_refl)). unfold good_file in Hall.
        rewrite Hd, Hraw in Hall. discriminate Hall.
      * specialize (IH all d). destruct (verify_loop pp files all d) as [[tr d'] c].
        simpl in *. rewrite IH. split.
        -- intros [-> Hall]. split; [reflexivity|]. intros g [<- | Hg]; [|exact (Hall g Hg)].
           unfold good_file. rewrite Hd, Hraw. reflexivity.
        -- intros [-> Hall]. split; [reflexivity|]. intros g Hg. apply Hall. right. exact Hg.
    + specialize (IH all d). destruct (verify_loop pp files all d) as [[tr d'] c].
      simpl in *. rewrite IH. split.
      * intros [-> Hall]. split; [reflexivity|]. intros g [<- | Hg]; [|exact (Hall g Hg)].
        unfold good_file. rewrite Hd. reflexivity.
      * intros [-> Hall]. split; [reflexivity|]. intros g Hg. apply Hall. right. exact Hg.
    + specialize (IH false d). destruct (verify_loop pp files false d) as [[tr d'] c].
      simpl in *. rewrite IH. split; [intros [Hf _]; discriminate Hf|].
      intros [_ Hall]. specialize (Hall f (or_introl eq_refl)). unfold good_file in Hall.
      rewrite Hd in Hall. discriminate Hall.
Qed.

(** Without a directory in the way the loop visits every file. *)
Lemma verify_loop_total pp files : forall all d,
  (forall f, In f files -> d !! path_join pp f <> Some Folder) ->
  exists b, snd (verify_loop pp files all d) = Ok b /\
  List.filter is_presence_report (fst (fst (verify_loop pp files all d))) =
  map (first_report d pp) files.
Proof.
  induction files as [|f files IH]; intros all d Hnf.
  - exists all. split; reflexivity.
  - assert (Hnf' : forall g, In g files -> d !! path_join pp g <> Some Folder)
      by (intros g Hg; apply Hnf; right; exact Hg).
    pose proof (Hnf f (or_introl eq_refl)) as Hf.
    rewrite verify_loop_cons. cbn [map]. unfold first_report at 1.
    destruct (d !! path_join pp f) as [[|raw|v]|]; [destruct (Hf eq_refl) | | |].
    + destruct (String.eqb raw "").
      * destruct (IH false d Hnf') as (b & Hb & Ht).
        destruct (verify_loop pp files false d) as [[tr d'] c]. simpl in *.
        exists b. split; [exact Hb | rewrite Ht; reflexivity].
      * destruct (IH all d Hnf') as (b & Hb & Ht).
        destruct (verify_loop pp files all d) as [[tr d'] c]. simpl in *.
        exists b. split; [exact Hb | rewrite Ht; reflexivity].
    + destruct (IH all d Hnf') as (b & Hb & Ht).
      destruct (verify_loop pp files all d) as [[tr d'] c]. simpl in *.
      exists b. split; [exact Hb | rewrite Ht; reflexivity].
    + destruct (IH false d Hnf') as (b & Hb & Ht).
      destruct (verify_loop pp files false d) as [[tr d'] c]. simpl in *.
      exists b. split; [exact Hb | rewrite Ht; reflexivity].
Qed.

Lemma verifyStructure_unfold pp d :
  verifyStructure pp d =
  match verify_loop pp expectedFiles true d with
  | (tr, d', Ok true) => (Print Verifying :: tr ++ [Print VerificationPassed], d', Ok tt)
  | (tr, d', Ok false) => (Print Verifying :: tr ++ [], d', Throw (Error verification_failed))
  | (tr, d', Throw e) => (Print Verifying :: tr, d', Throw e)
  | (tr, d', Halt) => (Print Verifying :: tr, d', Halt)
  end.
Proof.
  unfold verifyStructure, tbind, print, tstep, tthrow. cbv beta.
  destruct (verify_loop pp expectedFiles true d) as [[tr d'] [[|]|e|]]; reflexivity.
Qed.

(** X11: [verifyStructure] resolves exactly when every expected file is
    there with some content (a directory or an empty file in its place does
    not count); it changes nothing on the disk; and when no directory is in
    the way of an expected file, a failure is the error
    'Structure verification failed'. *)
Theorem verification_passes_iff (projectPath : string) (d : gmap string node) :
  (snd (verifyStructure projectPath d) = Ok tt <->
   forall f, In f expectedFiles -> has_content d (path_join projectPath f)) /\
  snd (fst (verifyStructure projectPath d)) = d /\
  ((forall f, In f expectedFiles -> d !! path_join projectPath f <> Some Folder) ->
   snd (verifyStructure projectPath d) = Ok tt \/
   snd (verifyStructure projectPath d) = Throw (Error verification_failed)).
Proof.
  rewrite verifyStructure_unfold.
  pose proof (verify_loop_flag projectPath expectedFiles true d) as Hflag.
  pose proof (verify_loop_reads_only projectPath expectedFiles true d) as Hro.
  pose proof (verify_loop_total projectPath expectedFiles true d) as Htot.
  destruct (verify_loop projectPath expectedFiles true d) as [[tr d'] c].
  cbn [fst snd] in *.
  assert (Hiff : c = Ok true <->
                 forall f, In f expectedFiles -> has_content d (path_join projectPath f)).
  { rewrite Hflag. split.
    - intros [_ Hall] f Hf. apply good_file_content, Hall, Hf.
    - intros Hall. split; [reflexivity|]. intros f Hf. apply good_file_content, Hall, Hf. }
  split; [|split].
  - rewrite <- Hiff. destruct c as [[|]|e|]; cbn [snd]; split; congruence.
  - destruct c as [[|]|e|]; exact Hro.
  - intros Hnf. destruct (Htot Hnf) as (b & -> & _). destruct b; [left | right]; reflexivity.
Qed.

(** X12: the loop does not stop at the first missing or empty file: when
    no directory is in the way, every expected file gets its line, in the
    order of the list, a check mark if something is at its path and
    'Missing' if not. *)
Theorem every_expected_file_is_reported (projectPath : string) (d : gmap string node) :
  (forall f, In f expectedFiles -> d !! path_join projectPath f <> Some Folder) ->
  List.filter is_presence_report (fst (fst (verifyStructure projectPath d))) =
  map (first_report d projectPath) expectedFiles.
Proof.
  intros Hnf. rewrite verifyStructure_unfold.
  destruct (verify_loop_total projectPath expectedFiles true d Hnf) as (b & Hb & Ht).
  destruct (verify_loop projectPath expectedFiles true d) as [[tr d'] c].
  cbn [fst snd] in *. subst c.
  destruct b; cbn [fst]; cbn [List.filter is_presence_report];
    rewrite List.filter_app, Ht; cbn [List.filter is_presence_report]; apply app_nil_r.
Qed.

Lemma every_expected_file_is_reported_witness :
  List.filter is_presence_report
    (fst (fst (verifyStructure "/repo/test-expo-project"
                 (<["/repo/test-expo-project/app/index.tsx" := Unparseable ""]> ∅)))) =
  [Print (Missing "app/_layout.tsx");
   Print (Found "app/index.tsx");
   Print (Missing "app/(home)/index.tsx");
   Print (Missing "app/(settings)/index.tsx");
   Print (Missing "app/(profile)/index.tsx");
   Print (Missing "src/components/Button/index.ts");
   Print (Missing "src/components/Button/Button.tsx");
   Print (Missing "src/components/Button/Button.styles.ts");
   Print (Missing "src/screens/home/HomeContainer.tsx");
   Print (Missing "src/screens/home/HomeView.tsx");
   Print (Missing "src/features/home/HomeViewModel.ts")].
Proof.
  etransitivity.
  - apply (every_expected_file_is_reported "/repo/test-expo-project"
             (<["/repo/test-expo-project/app/index.tsx" := Unparseable ""]> ∅)).
    intros f Hf. vm_compute in Hf.
    repeat (destruct Hf as [<- | Hf]; [vm_compute; discriminate|]). destruct Hf.
  - vm_compute. reflexivity.
Defined.

Lemma append_same_prefix (s a b : string) : s ++ a = s ++ b -> a = b.
Proof. induction s as [|c s IH]; simpl; [tauto | intros [= Heq]; exact (IH Heq)]. Qed.

Lemma append_not_self (s t : string) : s ++ t = s -> t = "".
Proof. induction s as [|c s IH]; simpl; [tauto | intros [= Heq]; exact (IH Heq)]. Qed.

Lemma path_join_inj dir a b : path_join dir a = path_join dir b -> a = b.
Proof.
  unfold path_join. destruct (String.eqb dir "/"); intros Heq.
  - exact (append_same_prefix "/" a b Heq).
  - apply (append_same_prefix "/" a b), (append_same_prefix dir). exact Heq.
Qed.

Lemma path_join_below dir a : a <> "" -> path_join dir a <> dir.
Proof.
  unfold path_join. destruct (String.eqb_spec dir "/") as [-> | Hne]; intros Ha Heq.
  - apply Ha. exact (append_not_self "/" a Heq).
  - apply append_not_self in Heq. discriminate Heq.
Qed.

Lemma setup_on_directory en d :
  d !! test_project_path en = Some Folder ->
  d !! path_join (test_project_path en) "package.json" <> Some Folder ->
  d !! path_join (test_project_path en) "app.json" <> Some Folder ->
  setupTestProject en d =
  ([Print SettingUp; Print SetupComplete],
   <[path_join (test_project_path en) "app.json" := JsonFile test_app_json]>
     (<[path_join (test_project_path en) "package.json" := JsonFile test_package_json]> d),
   Ok (test_project_path en)).
Proof.
  intros Hdir Hpkg Happ.
  unfold setupTestProject, tbind, print, tstep, ensureDir, writeJson, tret.
  fold (test_project_path en). cbv beta. rewrite Hdir. cbn.
  assert (Hne : path_join (test_project_path en) "package.json" <>
                path_join (test_project_path en) "app.json").
  { intros Heq. apply path_join_inj in Heq. discriminate Heq. }
  destruct (d !! path_join (test_project_path en) "package.json") as [[|raw|v]|];
    [destruct (Hpkg eq_refl) | | |]; cbn;
    rewrite (lookup_insert_ne d _ _ _ Hne);
    destruct (d !! path_join (test_project_path en) "app.json") as [[|raw'|v']|];
    try (destruct (Happ eq_refl)); reflexivity.
Qed.

Lemma setup_creates_directory en d :
  d !! test_project_path en = None ->
  setupTestProject en d = setupTestProject en (<[test_project_path en := Folder]> d).
Proof.
  intros Hdir.
  unfold setupTestProject, tbind, print, tstep, ensureDir.
  fold (test_project_path en). cbv beta. rewrite Hdir, lookup_insert_eq. reflexivity.
Qed.

(** What [setupTestProject] leaves, when nothing is in its way. *)
Lemma setup_result en d :
  d !! test_project_path en = None \/ d !! test_project_path en = Some Folder ->
  d !! path_join (test_project_path en) "package.json" <> Some Folder ->
  d !! path_join (test_project_path en) "app.json" <> Some Folder ->
  setupTestProject en d =
  ([Print SettingUp; Print SetupComplete],
   <[path_join (test_project_path en) "app.json" := JsonFile test_app_json]>
     (<[path_join (test_project_path en) "package.json" := JsonFile test_package_json]>
        (<[test_project_path en := Folder]> d)),
   Ok (test_project_path en)).
Proof.
  intros [Hdir | Hdir] Hpkg Happ.
  - rewrite (setup_creates_directory en d Hdir). apply setup_on_directory.
    + apply lookup_insert_eq.
    + rewrite lookup_insert_ne; [exact Hpkg|].
      intros Heq. symmetry in Heq. revert Heq. apply path_join_below. discriminate.
    + rewrite lookup_insert_ne; [exact Happ|].
      intros Heq. symmetry in Heq. revert Heq. apply path_join_below. discriminate.
  - rewrite (insert_id d _ _ Hdir). apply setup_on_directory; assumption.
Qed.

(** X13: whatever manifests the test directory held before (stale,
    unparseable, none), after [setupTestProject] it is a project that
    [validateProjectDirectory] of the command accepts, and nothing outside
    the directory and its two manifests has changed. *)
Theorem test_project_passes_validation (en : env) (d : gmap string node)
    (generator : string -> generator_options -> completion unit)
    (syntax : string -> string) :
  d !! test_project_path en = None \/ d !! test_project_path en = Some Folder ->
  d !! path_join (test_project_path en) "package.json" <> Some Folder ->
  d !! path_join (test_project_path en) "app.json" <> Some Folder ->
  exists tr d',
    setupTestProject en d = (tr, d', Ok (test_project_path en)) /\
    validateProjectDirectory (World (test_project_path en) d' generator syntax)
                             (test_project_path en) = ([], Ok tt) /\
    (forall q, q <> test_project_path en ->
               q <> path_join (test_project_path en) "package.json" ->
               q <> path_join (test_project_path en) "app.json" ->
               d' !! q = d !! q).
Proof.
  intros Hdir Hpkg Happ. eexists. eexists.
  split; [exact (setup_result en d Hdir Hpkg Happ)|].
  assert (Hne : path_join (test_project_path en) "app.json" <>
                path_join (test_project_path en) "package.json").
  { intros Heq. apply path_join_inj in Heq. discriminate Heq. }
  split.
  - rewrite validate_unfold. unfold pathExists, readJson, package_json, app_json.
    cbn [cwd disk].
    rewrite lookup_insert_eq, (lookup_insert_ne _ _ _ _ Hne), lookup_insert_eq.
    reflexivity.
  - intros q Hq1 Hq2 Hq3.
    rewrite !lookup_insert_ne by (intros Heq; symmetry in Heq; contradiction).
    reflexivity.
Qed.

Lemma test_project_passes_validation_witness :
  validateProjectDirectory
    (World "/repo/test-expo-project"
       (snd (fst (setupTestProject (Env "/repo" writing_generator)
                    (<["/repo/test-expo-project/package.json" := Unparseable "{"]> ∅))))
       (fun _ _ => Ok tt) (fun _ => "Unexpected end of JSON input"))
    "/repo/test-expo-project" = ([], Ok tt).
Proof.
  destruct (test_project_passes_validation (Env "/repo" writing_generator)
              (<["/repo/test-expo-project/package.json" := Unparseable "{"]> ∅)
              (fun _ _ => Ok tt) (fun _ => "Unexpected end of JSON input"))
    as (tr & d' & Hs & Hv & _).
  - left. vm_compute. reflexivity.
  - vm_compute. discriminate.
  - vm_compute. discriminate.
  - rewrite Hs. exact Hv.
Defined.

Lemma setup_path en d tr d' q :
  setupTestProject en d = (tr, d', Ok q) -> q = test_project_path en.
Proof.
  unfold setupTestProject, tbind, print, tstep, tret. fold (test_project_path en). cbv beta.
  destruct (ensureDir (test_project_path en) d) as [[t1 d1] [[]|e|]]; try discriminate.
  destruct (writeJson (path_join (test_project_path en) "package.json") test_package_json d1)
    as [[t2 d2] [[]|e|]]; try discriminate.
  destruct (writeJson (path_join (test_project_path en) "app.json") test_app_json d2)
    as [[t3 d3] [[]|e|]]; try discriminate.
  intros [= _ _ <-]. reflexivity.
Qed.

Lemma setup_prints en d st :
  In st (fst (fst (setupTestProject en d))) ->
  st = Print SettingUp \/ st = Print SetupComplete.
Proof.
  unfold setupTestProject, tbind, print, tstep, tret, ensureDir, writeJson.
  fold (test_project_path en). cbv beta.
  destruct (d !! test_project_path en) as [[|raw|v]|]; cbn;
    try (intros [<- | []]; left; reflexivity);
    match goal with
    | |- context [?m !! path_join (test_project_path en) "package.json"] =>
        destruct (m !! path_join (test_project_path en) "package.json") as [[|raw1|v1]|]
    end; cbn;
    try (intros [<- | []]; left; reflexivity);
    match goal with
    | |- context [?m !! path_join (test_project_path en) "app.json"] =>
        destruct (m !! path_join (test_project_path en) "app.json") as [[|raw2|v2]|]
    end; cbn;
    try (intros [<- | []]; left; reflexivity);
    intros [<- | [<- | []]]; tauto.
Qed.

Lemma verify_loop_prints pp files : forall all d st,
  In st (fst (fst (verify_loop pp files all d))) ->
  exists f, st = Print (Found f) \/ st = Print (EmptyFile f) \/ st = Print (Missing f).
Proof.
  induction files as [|f files IH]; intros all d st; [intros []|].
  rewrite verify_loop_cons.
  destruct (d !! path_join pp f) as [[|raw|v]|].
  - intros [<- | []]. eauto.
  - destruct (String.eqb raw "").
    + specialize (IH false d st). destruct (verify_loop pp files false d) as [[tr d'] c].
      intros [<- | [<- | Hin]]; eauto.
    + specialize (IH all d st). destruct (verify_loop pp files all d) as [[tr d'] c].
      intros [<- | Hin]; eauto.
  - specialize (IH all d st). destruct (verify_loop pp files all d) as [[tr d'] c].
    intros [<- | Hin]; eauto.
  - specialize (IH false d st). destruct (verify_loop pp files false d) as [[tr d'] c].
    intros [<- | Hin]; eauto.
Qed.

Lemma verify_prints pp d st :
  In st (fst (fst (verifyStructure pp d))) ->
  exists r, st = Print r /\ r <> AllPassed.
Proof.
  rewrite verifyStructure_unfold.
  pose proof (verify_loop_prints pp expectedFiles true d st) as Hl.
  destruct (verify_loop pp expectedFiles true d) as [[tr d'] c]. cbn [fst] in Hl.
  assert (Hloop : In st tr -> exists r, st = Print r /\ r <> AllPassed).
  { intros Hin. destruct (Hl Hin) as (f & [-> | [-> | ->]]); eexists; split;
      try reflexivity; discriminate. }
  destruct c as [[|]|e|]; cbn [fst]; intros [<- | Hin];
    try (eexists; split; [reflexivity | discriminate]);
    try (apply Hloop; exact Hin).
  - apply in_app_or in Hin as [Hin | [<- | []]]; [apply Hloop; exact Hin|].
    eexists; split; [reflexivity | discriminate].
  - rewrite app_nil_r in Hin. apply Hloop. exact Hin.
Qed.

(** The run of [runTests], stage by stage. *)
Lemma runTests_shape en d :
  runTests en d =
  match setupTestProject en d with
  | (t0, d0, Ok q) =>
      match generate en q (GeneratorArgs (Some false) None) d0 with
      | (d1, Ok _) =>
          match generate en q (GeneratorArgs (Some true) None) d1 with
          | (d2, Ok _) =>
              match generate en q (GeneratorArgs None (Some true)) d2 with
              | (d3, Ok _) =>
                  match verifyStructure q d3 with
                  | (tv, d4, Ok _) =>
                      (Print StartingTests :: t0 ++
                       [Print Test1; Construct q (GeneratorArgs (Some false) None); CallGenerate] ++
                       [Print Test2; Construct q (GeneratorArgs (Some true) None); CallGenerate] ++
                       [Print Test3; Construct q (GeneratorArgs None (Some true)); CallGenerate] ++
                       tv ++ [Print AllPassed], d4, Ok tt)
                  | (tv, d4, c) =>
                      (Print StartingTests :: t0 ++
                       [Print Test1; Construct q (GeneratorArgs (Some false) None); CallGenerate] ++
                       [Print Test2; Construct q (GeneratorArgs (Some true) None); CallGenerate] ++
                       [Print Test3; Construct q (GeneratorArgs None (Some true)); CallGenerate] ++
                       tv ++ failure_steps c, d4, Halt)
                  end
              | (d3, c) =>
                  (Print StartingTests :: t0 ++
                   [Print Test1; Construct q (GeneratorArgs (Some false) None); CallGenerate] ++
                   [Print Test2; Construct q (GeneratorArgs (Some true) None); CallGenerate] ++
                   [Print Test3; Construct q (GeneratorArgs None (Some true)); CallGenerate] ++
                   failure_steps c, d3, Halt)
              end
          | (d2, c) =>
              (Print StartingTests :: t0 ++
               [Print Test1; Construct q (GeneratorArgs (Some false) None); CallGenerate] ++
               [Print Test2; Construct q (GeneratorArgs (Some true) None); CallGenerate] ++
               failure_steps c, d2, Halt)
          end
      | (d1, c) =>
          (Print StartingTests :: t0 ++
           [Print Test1; Construct q (GeneratorArgs (Some false) None); CallGenerate] ++
           failure_steps c, d1, Halt)
      end
  | (t0, d0, c) => (Print StartingTests :: t0 ++ failure_steps c, d0, Halt)
  end.
Proof.
  unfold runTests. generalize verifyStructure, (setupTestProject en). intros verify setup.
  unfold ttry, tbind, generation, print, tstep, texit. cbv beta.
  destruct (setup d) as [[t0 d0] [q|e|]]; cbn; rewrite ?app_nil_r;
    try reflexivity; try (rewrite <- ?app_assoc; cbn; reflexivity).
  destruct (generate en q (GeneratorArgs (Some false) None) d0) as [d1 [[]|e|]]; cbn;
    rewrite ?app_nil_r; try reflexivity; try (rewrite <- ?app_assoc; cbn; reflexivity).
  destruct (generate en q (GeneratorArgs (Some true) None) d1) as [d2 [[]|e|]]; cbn;
    rewrite ?app_nil_r; try reflexivity; try (rewrite <- ?app_assoc; cbn; reflexivity).
  destruct (generate en q (GeneratorArgs None (Some true)) d2) as [d3 [[]|e|]]; cbn;
    rewrite ?app_nil_r; try reflexivity; try (rewrite <- ?app_assoc; cbn; reflexivity).
  destruct (verify q d3) as [[tv d4] [[]|e|]]; cbn;
    rewrite <- ?app_assoc; cbn; rewrite ?app_nil_r; reflexivity.
Qed.

Lemma verify_ok pp d :
  snd (verifyStructure pp d) = Ok tt ->
  (forall f, In f expectedFiles -> has_content d (path_join pp f)) /\
  snd (fst (verifyStructure pp d)) = d.
Proof.
  rewrite verifyStructure_unfold.
  pose proof (verify_loop_flag pp expectedFiles true d) as Hflag.
  pose proof (verify_loop_reads_only pp expectedFiles true d) as Hro.
  destruct (verify_loop pp expectedFiles true d) as [[tr d'] [[|]|e|]];
    cbn [fst snd] in *; try discriminate.
  intros _. split; [|exact Hro].
  intros f Hf. apply good_file_content. apply (proj1 Hflag eq_refl). exact Hf.
Qed.

Lemma failure_steps_not_passed {A} (c : completion A) :
  ~ In (Print AllPassed) (failure_steps c).
Proof. destruct c; simpl; intros Hin; try tauto. destruct Hin as [H1 | [H1 | []]]; discriminate H1. Qed.

Lemma setup_not_passed en d : ~ In (Print AllPassed) (fst (fst (setupTestProject en d))).
Proof. intros Hin. destruct (setup_prints en d _ Hin) as [H1 | H1]; discriminate H1. Qed.

Lemma verify_not_passed pp d : ~ In (Print AllPassed) (fst (fst (verifyStructure pp d))).
Proof.
  intros Hin. destruct (verify_prints pp d _ Hin) as (r & [= <-] & Hr). apply Hr. reflexivity.
Qed.

Ltac members Hin :=
  repeat match type of Hin with
         | In _ (_ :: _) => destruct Hin as [Hin | Hin]; [discriminate Hin|]
         | In _ (_ ++ _) => apply in_app_or in Hin; destruct Hin as [Hin | Hin]
         | In _ [] => destruct Hin
         end.

(** X14: [runTests] lets no exception escape; it prints 'All tests passed!'
    exactly when it completes normally, and then every expected file is in
    the test project with some content. *)
Theorem all_tests_passed_is_sound (en : env) (d : gmap string node) :
  (In (Print AllPassed) (fst (fst (runTests en d))) <-> snd (runTests en d) = Ok tt) /\
  (snd (runTests en d) = Ok tt ->
   forall f, In f expectedFiles ->
             has_content (snd (fst (runTests en d))) (path_join (test_project_path en) f)) /\
  (forall e, snd (runTests en d) <> Throw e).
Proof.
  rewrite runTests_shape.
  pose proof (setup_not_passed en d) as Hs.
  pose proof (setup_path en d) as Hpath.
  assert (Hfailed : forall (tr : list step) (d' : gmap string node),
            ~ In (Print AllPassed) tr ->
            (In (Print AllPassed) (fst (fst (tr, d', @Halt unit))) <->
             snd (tr, d', @Halt unit) = Ok tt) /\
            (snd (tr, d', @Halt unit) = Ok tt ->
             forall f, In f expectedFiles ->
                       has_content (snd (fst (tr, d', @Halt unit)))
                                   (path_join (test_project_path en) f)) /\
            (forall e, snd (tr, d', @Halt unit) <> Throw e)).
  { intros tr d' Hno. cbn [fst snd]. split; [split; [intros Hin; destruct (Hno Hin)|]|];
      [discriminate | split; discriminate]. }
  destruct (setupTestProject en d) as [[t0 d0] [q|e0|]]; cbn [fst snd] in Hs;
    [| apply Hfailed; intros Hin; members Hin;
       first [exact (Hs Hin) | exact (failure_steps_not_passed _ Hin)] ..].
  specialize (Hpath t0 d0 q eq_refl).
  destruct (generate en q (GeneratorArgs (Some false) None) d0) as [d1 [[]|e1|]];
    [| apply Hfailed; intros Hin; members Hin;
       first [exact (Hs Hin) | exact (failure_steps_not_passed _ Hin)] ..].
  destruct (generate en q (GeneratorArgs (Some true) None) d1) as [d2 [[]|e2|]];
    [| apply Hfailed; intros Hin; members Hin;
       first [exact (Hs Hin) | exact (failure_steps_not_passed _ Hin)] ..].
  destruct (generate en q (GeneratorArgs None (Some true)) d2) as [d3 [[]|e3|]];
    [| apply Hfailed; intros Hin; members Hin;
       first [exact (Hs Hin) | exact (failure_steps_not_passed _ Hin)] ..].
  pose proof (verify_not_passed q d3) as Hv.
  pose proof (verify_ok q d3) as Hok.
  destruct (verifyStructure q d3) as [[tv d4] [[]|ev|]]; cbn [fst snd] in Hv, Hok;
    [| apply Hfailed; intros Hin; members Hin;
       first [exact (Hs Hin) | exact (Hv Hin) | exact (failure_steps_not_passed _ Hin)] ..].
  cbn [fst snd]. split; [|split; [|discriminate]].
  - split; [reflexivity|]. intros _. right. do 5 (apply in_or_app; right).
    left. reflexivity.
  - intros _. destruct (Hok eq_refl) as [Hall ->]. rewrite <- Hpath. exact Hall.
Qed.

Lemma all_tests_passed_is_sound_witness :
  has_content (snd (fst (runTests (Env "/repo" writing_generator) ∅)))
              "/repo/test-expo-project/src/features/home/HomeViewModel.ts".
Proof.
  apply (all_tests_passed_is_sound (Env "/repo" writing_generator) ∅).
  - vm_compute. reflexivity.
  - vm_compute. tauto.
Defined.

Lemma constructions_app (l1 l2 : list step) :
  constructions (l1 ++ l2) = (constructions l1 ++ constructions l2)%list.
Proof. unfold constructions. rewrite map_app, concat_app. reflexivity. Qed.

Lemma constructions_prints (l : list step) :
  (forall st, In st l -> exists r, st = Print r) -> constructions l = [].
Proof.
  induction l as [|st l IH]; intros Hl; [reflexivity|].
  destruct (Hl st (or_introl eq_refl)) as [r ->]. unfold constructions in *. cbn.
  apply IH. intros st Hst. apply Hl. right. exact Hst.
Qed.

Lemma constructions_failure {A} (c : completion A) : constructions (failure_steps c) = [].
Proof. destruct c; reflexivity. Qed.

Lemma constructions_setup en d : constructions (fst (fst (setupTestProject en d))) = [].
Proof.
  apply constructions_prints. intros st Hst.
  destruct (setup_prints en d st Hst) as [-> | ->]; eauto.
Qed.

Lemma constructions_verify pp d : constructions (fst (fst (verifyStructure pp d))) = [].
Proof.
  apply constructions_prints. intros st Hst.
  destruct (verify_prints pp d st Hst) as (r & -> & _). eauto.
Qed.

(** X15: the three generators are constructed in the order of the tests,
    with [{force: false}], [{force: true}] and [{overwrite: true}], each only
    after [generate()] of the one before has resolved: the constructions of
    a run are a prefix of this list, and a throw from the first
    [generate()] ends the run with status 1 before the second generator is
    constructed. *)
Theorem tests_run_in_order (en : env) (d : gmap string node) :
  (exists rest,
     (constructions (fst (fst (runTests en d))) ++ rest)%list =
     [GeneratorArgs (Some false) None; GeneratorArgs (Some true) None;
      GeneratorArgs None (Some true)]) /\
  (forall t0 d0 q d1 e,
     setupTestProject en d = (t0, d0, Ok q) ->
     generate en q (GeneratorArgs (Some false) None) d0 = (d1, Throw e) ->
     runTests en d =
     ((Print StartingTests :: t0 ++
       [Print Test1; Construct q (GeneratorArgs (Some false) None); CallGenerate;
        PrintFailure e; Exit 1])%list, d1, Halt)).
Proof.
  split.
  - rewrite runTests_shape.
    pose proof (constructions_setup en d) as Hs.
    assert (Hcount : forall (l : list step) (d' : gmap string node) (c : completion unit)
                            (given : list generator_args),
              constructions l = given ->
              (exists rest, (given ++ rest)%list =
                            [GeneratorArgs (Some false) None; GeneratorArgs (Some true) None;
                             GeneratorArgs None (Some true)]) ->
              exists rest,
                (constructions (fst (fst (Print StartingTests :: l, d', c))) ++ rest)%list =
                [GeneratorArgs (Some false) None; GeneratorArgs (Some true) None;
                 GeneratorArgs None (Some true)]).
    { intros l d' c given <- Hrest. exact Hrest. }
    destruct (setupTestProject en d) as [[t0 d0] [q|e0|]]; cbn [fst snd] in Hs;
      [| eapply Hcount;
         [rewrite !constructions_app, Hs, ?constructions_failure; reflexivity
         | eexists; reflexivity] ..].
    destruct (generate en q (GeneratorArgs (Some false) None) d0) as [d1 [[]|e1|]];
      [| eapply Hcount;
         [rewrite !constructions_app, Hs, ?constructions_failure; reflexivity
         | eexists; reflexivity] ..].
    destruct (generate en q (GeneratorArgs (Some true) None) d1) as [d2 [[]|e2|]];
      [| eapply Hcount;
         [rewrite !constructions_app, Hs, ?constructions_failure; reflexivity
         | eexists; reflexivity] ..].
    destruct (generate en q (GeneratorArgs None (Some true)) d2) as [d3 [[]|e3|]];
      [| eapply Hcount;
         [rewrite !constructions_app, Hs, ?constructions_failure; reflexivity
         | eexists; reflexivity] ..].
    pose proof (constructions_verify q d3) as Hv.
    destruct (verifyStructure q d3) as [[tv d4] [[]|ev|]]; cbn [fst snd] in Hv;
      (eapply Hcount;
       [rewrite !constructions_app, Hs, Hv, ?constructions_failure; reflexivity
       | exists []; reflexivity]).
  - intros t0 d0 q d1 e Hsetup Hgen. rewrite runTests_shape, Hsetup, Hgen. reflexivity.
Qed.

End Tests.
